(** * cgx::bit — bit-precise fields and messages

    A shallow embedding of [field.hpp] (the [field_t] template) and of
    [bit_msg.hpp] (the [msg_t] template, its logger hooks and the message
    factories), followed by the properties of the decoding pipeline.

    Conventions of the embedding.
    - A byte buffer ([const std::uint8_t*]) is a [list Z]; reading past its
      end is undefined behaviour in the source and yields [None] here.
    - [std::size_t] is 64 bits wide and [int] 32 bits wide; unsigned
      arithmetic wraps and the wrap-around is written out.
    - The host is little-endian, so [memcpy] between a value of type [T] and
      a [std::uint32_t] moves the low [sizeof(T)] bytes.
    - Value types are the fixed-width integer types of at most 32 bits.
    - A condition closure [bool(field_t&, const T&)] is a function of the
      candidate value returning its verdict and, when it calls
      [var.force(x)], the forced value [x]. *)

From Stdlib Require Import ZArith Lia Bool.
From stdpp Require Import base option list list_numbers.

Local Open Scope Z_scope.

(** ** Machine arithmetic *)

(** Unsigned wrap-around of [std::size_t], [std::uint32_t], [std::uint8_t]. *)
Definition size_t (x : Z) : Z := x mod 2 ^ 64.
Definition uint32 (x : Z) : Z := x mod 2 ^ 32.
Definition uint8 (x : Z) : Z := x mod 2 ^ 8.
(** Unsigned wrap-around of [std::uint16_t]. *)
Definition uint16 (x : Z) : Z := x mod 2 ^ 16.

(** [for (std::size_t i = lo; i < hi; i++) body] as a left fold over the
    indices [lo, lo+1, ..., hi-1] (no iteration when [hi <= lo]). *)
Definition for_range {S : Type} (lo hi : Z) (body : Z → S → S) (s : S) : S :=
  foldl (λ acc i, body i acc) s (seqZ lo (hi - lo)).

(** [bytes[k]] on a caller-supplied buffer. *)
Definition read (bytes : list Z) (k : Z) : option Z := bytes !! Z.to_nat k.

Module Field.

(** [enum class endianess { little, big }] *)
Inductive endianess := little | big.

(** The value types [T] a field may be declared over: the fixed-width
    integer types of at most 32 bits.  The [static_assert]s of [field_t]
    bound [sizeof(T)] only, so the template also accepts other types of at
    most four bytes ([bool], [char], enumerations, [float]); those are not
    embedded, and every statement about a declaration is a statement about
    a declaration over one of these six types. *)
Inductive value_type :=
  | uint8_t | int8_t | uint16_t | int16_t | uint32_t | int32_t.

Definition sizeof (T : value_type) : Z :=
  match T with
  | uint8_t | int8_t => 1
  | uint16_t | int16_t => 2
  | uint32_t | int32_t => 4
  end.

Definition is_signed (T : value_type) : bool :=
  match T with
  | int8_t | int16_t | int32_t => true
  | _ => false
  end.

(** [std::numeric_limits<T>::min()] and [::max()] *)
Definition numeric_min (T : value_type) : Z :=
  if is_signed T then - 2 ^ (sizeof T * 8 - 1) else 0.
Definition numeric_max (T : value_type) : Z :=
  if is_signed T then 2 ^ (sizeof T * 8 - 1) - 1 else 2 ^ (sizeof T * 8) - 1.

(** [static_cast<T>(x)]: reduction modulo [2^(8*sizeof T)] into the range
    of [T].  It is also what [memcpy(&m_value, &raw, sizeof(m_value))]
    computes from a [std::uint32_t raw]. *)
Definition static_cast (T : value_type) (x : Z) : Z :=
  let u := x mod 2 ^ (sizeof T * 8) in
  if is_signed T && (2 ^ (sizeof T * 8 - 1) <=? u) then u - 2 ^ (sizeof T * 8)
  else u.

(** [raw = 0; memcpy(&raw, &m_value, sizeof(m_value))] *)
Definition to_raw (T : value_type) (v : Z) : Z := v mod 2 ^ (sizeof T * 8).

(** The template parameters of [field_t<T, NBitsT, TID, EndianessT>];
    [TID] stands for the value of [TID{}]. *)
Record field_decl := {
  T : value_type;
  NBitsT : Z;
  TID : Z;
  EndianessT : endianess;
}.

Definition n_bits (d : field_decl) : Z := NBitsT d.
Definition n_bytes (d : field_decl) : Z := (n_bits d + 7) / 8.

(** The two [static_assert]s on the width. *)
Definition wf_decl (d : field_decl) : Prop :=
  0 ≤ NBitsT d ≤ sizeof (T d) * 8.

(** [std::function<bool(field_t&, const T&)>] *)
Definition condition_fn : Type := Z → bool * option Z.

Record field_t := {
  decl : field_decl;
  m_condition : option condition_fn;  (* [None] is [nullptr] *)
  m_valid : bool;
  m_value : Z;
}.

Definition set_value (f : field_t) (v : Z) : field_t :=
  {| decl := decl f; m_condition := m_condition f;
     m_valid := m_valid f; m_value := v |}.
Definition set_valid (f : field_t) (b : bool) : field_t :=
  {| decl := decl f; m_condition := m_condition f;
     m_valid := b; m_value := m_value f |}.

(** The default member initialiser of [m_condition].  [(1 << NBitsT) - 1]
    is an [int] constant expression: it is exact for [NBitsT <= 30], is not
    evaluated for [NBitsT == 32], and overflows (so the declaration is
    rejected by the compiler) for [NBitsT == 31]. *)
Definition default_max (d : field_decl) : Z :=
  static_cast (T d)
    (if NBitsT d =? 32 then numeric_max (T d) else Z.shiftl 1 (NBitsT d) - 1).

Definition default_condition (d : field_decl) : condition_fn :=
  λ v,
    let min := numeric_min (T d) in
    let max := default_max d in
    let ok := (min <=? v) && (v <=? max) in
    (ok, None).

(** [id()] *)
Definition id (f : field_t) : Z := uint32 (TID (decl f)).

(** Constructors: [field_t()], [field_t(value)], [field_t(condition)] and
    the copy constructor, which leaves [m_valid] at its initialiser. *)
Definition field_default (d : field_decl) : field_t :=
  {| decl := d; m_condition := Some (default_condition d);
     m_valid := false; m_value := 0 |}.
Definition field_of_value (d : field_decl) (value : Z) : field_t :=
  {| decl := d; m_condition := Some (default_condition d);
     m_valid := false; m_value := value |}.
Definition field_of_condition (d : field_decl) (c : option condition_fn)
  : field_t :=
  {| decl := d; m_condition := c; m_valid := false; m_value := 0 |}.
Definition field_copy (other : field_t) : field_t :=
  {| decl := decl other; m_condition := m_condition other;
     m_valid := false; m_value := m_value other |}.

(** [force(other)] *)
Definition force (f : field_t) (other : Z) : field_t :=
  set_valid (set_value f other) true.

(** [validate()] *)
Definition validate (f : field_t) : field_t :=
  match m_condition f with
  | None => set_valid f true
  | Some c =>
      let '(ok, forced) := c (m_value f) in
      let f' := match forced with Some x => force f x | None => f end in
      set_valid f' ok
  end.

Definition is_valid (f : field_t) : bool := m_valid f.
Definition value (f : field_t) : Z := m_value f.

(** [operator=(const value_type&)], [operator=(const field_t&)], [init] *)
Definition assign (f : field_t) (other : Z) : field_t :=
  validate (set_value f other).
Definition assign_field (f other : field_t) : field_t :=
  validate {| decl := decl f; m_condition := m_condition other;
              m_valid := m_valid f; m_value := m_value other |}.
Definition init (f : field_t) (value : Z) : field_t :=
  validate (set_value f value).
Definition set_condition (f : field_t) (c : option condition_fn) : field_t :=
  {| decl := decl f; m_condition := c;
     m_valid := m_valid f; m_value := m_value f |}.

(** [lsb_unmarshal(bytes, bit_offset)] *)
Definition lsb_unmarshal (d : field_decl) (bytes : list Z) (bit_offset : Z)
  : option Z :=
  for_range bit_offset (size_t (bit_offset + n_bits d))
    (λ i acc,
       raw ← acc;
       b ← read bytes (i / 8);
       Some (Z.lor raw
               (uint32 (Z.shiftl (Z.land (Z.shiftr b (i mod 8)) 1)
                          (i - bit_offset)))))
    (Some 0).

(** [msb_unmarshal(bytes, bit_offset)] *)
Definition msb_unmarshal (d : field_decl) (bytes : list Z) (bit_offset : Z)
  : option Z :=
  for_range bit_offset (size_t (bit_offset + n_bits d))
    (λ i acc,
       raw ← acc;
       b ← read bytes (i / 8);
       let raw := uint32 (Z.shiftl raw 1) in
       Some (Z.lor raw (Z.land (Z.shiftr b (7 - i mod 8)) 1)))
    (Some 0).

(** The raw integer [unmarshal] reads, by bit order. *)
Definition decode_raw (d : field_decl) (bytes : list Z) (bit_offset : Z)
  : option Z :=
  match EndianessT d with
  | little => lsb_unmarshal d bytes bit_offset
  | big => msb_unmarshal d bytes bit_offset
  end.

(** [unmarshal(bytes, bit_offset)]: the updated field and the returned
    [is_valid()]. *)
Definition unmarshal (f : field_t) (bytes : list Z) (bit_offset : Z)
  : option (field_t * bool) :=
  raw ← decode_raw (decl f) bytes bit_offset;
  let f' := validate (set_value f (static_cast (T (decl f)) raw)) in
  Some (f', is_valid f').

(** [bytes[k] |= v] on the [std::array<std::uint8_t, n_bytes>]. *)
Definition or_at (bytes : list Z) (k : Z) (v : Z) : list Z :=
  alter (λ b, uint8 (Z.lor b v)) (Z.to_nat k) bytes.

(** [marshal()] *)
Definition marshal (f : field_t) : list Z :=
  let d := decl f in
  let bytes := replicate (Z.to_nat (n_bytes d)) 0 in
  let raw := to_raw (T d) (m_value f) in
  match EndianessT d with
  | little =>
      for_range 0 (n_bits d)
        (λ i bytes,
           or_at bytes (i / 8)
             (Z.shiftl (Z.land (Z.shiftr raw i) 1) (i mod 8)))
        bytes
  | big =>
      for_range 0 (n_bits d)
        (λ i bytes,
           or_at bytes (i / 8)
             (Z.shiftl (Z.land (Z.shiftr raw (n_bits d - i - 1)) 1)
                (i mod 8)))
        bytes
  end.

(** *** Condition builders *)

Definition any (d : field_decl) : field_t := field_default d.

Definition equal_to_any (d : field_decl) (values : list Z) : field_t :=
  field_of_condition d
    (Some (λ v, (existsb (λ value, v =? value) values, None))).
Definition equal_to (d : field_decl) (value : Z) : field_t :=
  field_of_condition d (Some (λ v, (v =? value, None))).
Definition not_equal_to (d : field_decl) (value : Z) : field_t :=
  field_of_condition d (Some (λ v, (negb (v =? value), None))).
Definition greater_than (d : field_decl) (value : Z) : field_t :=
  field_of_condition d (Some (λ v, (value <? v, None))).
Definition less_than (d : field_decl) (value : Z) : field_t :=
  field_of_condition d (Some (λ v, (v <? value, None))).
Definition greater_equal_to (d : field_decl) (value : Z) : field_t :=
  field_of_condition d (Some (λ v, (value <=? v, None))).
Definition less_equal_to (d : field_decl) (value : Z) : field_t :=
  field_of_condition d (Some (λ v, (v <=? value, None))).
Definition between (d : field_decl) (min max : Z) : field_t :=
  field_of_condition d (Some (λ v, ((min <=? v) && (v <=? max), None))).
Definition clamp (d : field_decl) (min max : Z) : field_t :=
  field_of_condition d
    (Some (λ v,
       if v <? min then (true, Some min)
       else if max <? v then (true, Some max)
       else (true, None))).
Definition condition (d : field_decl) (c : option condition_fn) : field_t :=
  field_of_condition d c.

End Field.

Module Msg.

Import Field.

(** What a decode call does to the outside world, in order: the five hooks
    of the logger ([msg_logger] shows their signatures; the message argument
    is left out), a run of the custom validator, and a run of the
    callback.  The last two carry the fields of the message they saw. *)
Inductive event :=
  | on_unmarshal_start
  | on_error_bit_size (got expected : Z)
  | on_error_condition (field_id : Z)
  | on_error_unmarshal (field_id : Z)
  | on_unmarshal_end
  | custom_validator_called (seen : list field_t)
  | callback_called (cb : nat) (seen : list field_t).

(** [msg_t<TLogger, TID, TFields...>]: the tuple of fields is a list in
    declaration order; a callback closure is named by a token. *)
Record msg_t := {
  fields : list field_t;
  valid : bool;
  m_callback : option nat;
  m_custom_validator : option (list field_t → bool);
}.

Definition set_fields (m : msg_t) (fs : list field_t) : msg_t :=
  {| fields := fs; valid := valid m; m_callback := m_callback m;
     m_custom_validator := m_custom_validator m |}.
Definition set_valid (m : msg_t) (b : bool) : msg_t :=
  {| fields := fields m; valid := b; m_callback := m_callback m;
     m_custom_validator := m_custom_validator m |}.
Definition set_callback (m : msg_t) (cb : option nat) : msg_t :=
  {| fields := fields m; valid := valid m; m_callback := cb;
     m_custom_validator := m_custom_validator m |}.
Definition set_custom_validator (m : msg_t)
    (cv : option (list field_t → bool)) : msg_t :=
  {| fields := fields m; valid := valid m; m_callback := m_callback m;
     m_custom_validator := cv |}.

(** [sum_bits<TFields...>()]; the empty pack has no instance in the
    source and is given 0. *)
Fixpoint sum_bits (ds : list field_decl) : Z :=
  match ds with
  | [] => 0
  | d :: rest =>
      match rest with
      | [] => n_bits d
      | _ => size_t (n_bits d + sum_bits rest)
      end
  end.

Definition n_fields (m : msg_t) : nat := length (fields m).
Definition n_bits (m : msg_t) : Z := sum_bits (decl <$> fields m).

(** [unmarshal_tuple<I>(bytes, bit_offset, args)], by recursion on the
    fields from index [I] on: the fields as left by the call, the logger
    events, and the returned flag. *)
Fixpoint unmarshal_tuple (bytes : list Z) (bit_offset : Z)
    (args : list field_t) : option (list field_t * list event * bool) :=
  match args with
  | [] => Some ([], [], true)
  | field :: rest =>
      '(field', ok) ← Field.unmarshal field bytes bit_offset;
      if negb ok then
        Some (field' :: rest, [on_error_unmarshal (id field')], false)
      else
        '(rest', tr, r) ←
          unmarshal_tuple bytes
            (size_t (bit_offset + Field.n_bits (decl field'))) rest;
        Some (field' :: rest', tr, r)
  end.

(** [is_valid_tuple<I>(args)] *)
Fixpoint is_valid_tuple (args : list field_t) : list event * bool :=
  match args with
  | [] => ([], true)
  | field :: rest =>
      if negb (Field.is_valid field) then
        ([on_error_condition (id field)], false)
      else is_valid_tuple rest
  end.

(** [is_valid()] *)
Definition is_valid (m : msg_t) : list event * bool :=
  let '(tr, valid) := is_valid_tuple (fields m) in
  match m_custom_validator m with
  | Some cv =>
      if valid then (tr ++ [custom_validator_called (fields m)], cv (fields m))
      else (tr, false)
  | None => (tr, valid)
  end.

(** [len * 8 - bit_offset] in [std::size_t]. *)
Definition bits_available (len bit_offset : Z) : Z :=
  size_t (size_t (len * 8) - bit_offset).

(** The part of [on_unmarshal] after the size check: decode the fields,
    then the custom validator, then the callback.  The events start after
    [on_unmarshal_start]. *)
Definition on_unmarshal_decode (m : msg_t) (bytes : list Z) (bit_offset : Z)
  : option (msg_t * list event * bool) :=
  let offset := bit_offset in
  '(fs, tr, ok) ← unmarshal_tuple bytes offset (fields m);
  let m1 := set_valid (set_fields m fs) ok in
  let '(m2, tr_cv) :=
    match m_custom_validator m1 with
    | Some cv =>
        if valid m1 then
          (set_valid m1 (cv (fields m1)), [custom_validator_called (fields m1)])
        else (m1, [])
    | None => (m1, [])
    end in
  let tr_cb :=
    match m_callback m2 with
    | Some cb => if valid m2 then [callback_called cb (fields m2)] else []
    | None => []
    end in
  Some (m2, tr ++ [on_unmarshal_end] ++ tr_cv ++ tr_cb, valid m2).

(** [on_unmarshal(bytes, len, bit_offset)] *)
Definition on_unmarshal (m : msg_t) (bytes : list Z) (len bit_offset : Z)
  : option (msg_t * list event * bool) :=
  if bits_available len bit_offset <? n_bits m then
    Some (set_valid m false,
          [on_unmarshal_start;
           on_error_bit_size (bits_available len bit_offset) (n_bits m)],
          false)
  else
    '(m', tr, r) ← on_unmarshal_decode m bytes bit_offset;
    Some (m', on_unmarshal_start :: tr, r).

(** [msg::unmarshal(bytes, len, bit_offset)] and the [std::array]
    overload, whose [len] is the array's size. *)
Definition unmarshal (m : msg_t) (bytes : list Z) (len bit_offset : Z) :=
  on_unmarshal m bytes len bit_offset.

(** [msg_t(callback, fields...)]: every field is copy-constructed. *)
Definition msg_of_fields (cb : option nat) (fs : list field_t) : msg_t :=
  {| fields := field_copy <$> fs; valid := false; m_callback := cb;
     m_custom_validator := None |}.

(** [make_msg(id, cb, fields...)] *)
Definition make_msg (cb : option nat) (fs : list field_t) : msg_t :=
  msg_of_fields cb fs.

(** [_make_msg_cat(logger, id, cb, other, fields...)] *)
Definition _make_msg_cat (cb : option nat) (other : list field_t)
    (fs : list field_t) : msg_t :=
  let tuple := field_copy <$> fs in
  let concat := field_copy <$> (other ++ tuple) in
  msg_of_fields cb concat.

(** [make_msg_cat(id, cb, other, fields...)] *)
Definition make_msg_cat (cb : option nat) (other : msg_t)
    (fs : list field_t) : msg_t :=
  _make_msg_cat cb (fields other) fs.

(** The body of [marshal_tuple<I>] for one field: pack the field's bytes
    into [bytes] at [bit_offset], carrying the bits shifted out of each
    byte into the next one. *)
Definition marshal_field (field : field_t) (bytes : list Z) (bit_offset : Z)
  : option (list Z) :=
  let byte_offset := bit_offset / 8 in
  let byte_shift := bit_offset mod 8 in
  let data := Field.marshal field in
  '(bytes, overflow) ←
    for_range 0 (Field.n_bytes (decl field))
      (λ i acc,
         '(bytes, overflow) ← acc;
         b ← read bytes (byte_offset + i);
         d ← read data i;
         let byte := b in
         let byte := uint16 (Z.lor byte overflow) in
         let byte := uint16 (Z.lor byte (Z.shiftl d byte_shift)) in
         let overflow := uint16 (Z.shiftr byte 8) in
         Some (<[Z.to_nat (byte_offset + i) := uint8 byte]> bytes, overflow))
      (Some (bytes, 0));
  if overflow =? 0 then Some bytes
  else
    let k := byte_offset + Field.n_bytes (decl field) in
    b ← read bytes k;
    Some (<[Z.to_nat k := uint8 (Z.lor b overflow)]> bytes).

(** [marshal_tuple<I>(args, bytes, bit_offset)] *)
Fixpoint marshal_tuple (args : list field_t) (bytes : list Z) (bit_offset : Z)
  : option (list Z) :=
  match args with
  | [] => Some bytes
  | field :: rest =>
      bytes ← marshal_field field bytes bit_offset;
      marshal_tuple rest bytes (size_t (bit_offset + Field.n_bits (decl field)))
  end.

Definition n_bytes (m : msg_t) : Z := (n_bits m + 7) / 8.

(** [marshal()] *)
Definition marshal (m : msg_t) : option (list Z) :=
  let bytes := replicate (Z.to_nat (n_bytes m)) 0 in
  let bit_offset := 0 in
  marshal_tuple (fields m) bytes bit_offset.
End Msg.

(** ** The demonstration program's message *)

Definition first_f : Field.field_decl :=
  {| Field.T := Field.uint16_t; Field.NBitsT := 4; Field.TID := 0;
     Field.EndianessT := Field.little |}.
Definition second_f : Field.field_decl :=
  {| Field.T := Field.uint16_t; Field.NBitsT := 12; Field.TID := 0;
     Field.EndianessT := Field.little |}.

(** [make_msg(0, cb, first_f::between(0, 2), second_f::any())] *)
Definition example_msg : Msg.msg_t :=
  Msg.make_msg (Some 0%nat) [Field.between first_f 0 2; Field.any second_f].

Definition values (m : Msg.msg_t) : list Z := Field.m_value <$> Msg.fields m.
Definition validities (m : Msg.msg_t) : list bool :=
  Field.m_valid <$> Msg.fields m.

(** The message of [first_f] alone, extended by [second_f]. *)
Definition first_msg : Msg.msg_t :=
  Msg.make_msg None [Field.between first_f 0 2].
Definition cat_msg : Msg.msg_t :=
  Msg.make_msg_cat (Some 0%nat) first_msg [Field.any second_f].

(** The declaration [field_t<std::int8_t, 8>]. *)
Definition int8_full : Field.field_decl :=
  {| Field.T := Field.int8_t; Field.NBitsT := 8; Field.TID := 0;
     Field.EndianessT := Field.little |}.

(** The declaration [field_t<std::uint8_t, 8, std::size_t, endianess::big>]. *)
Definition msb_byte : Field.field_decl :=
  {| Field.T := Field.uint8_t; Field.NBitsT := 8; Field.TID := 0;
     Field.EndianessT := Field.big |}.

(** What a test would print after a decode call: the field values, the
    field validities, the returned flag, and [is_valid()]. *)
Definition summary (r : option (Msg.msg_t * list Msg.event * bool))
  : option (list Z * list bool * bool * bool) :=
  '(m, _, b) ← r; Some (values m, validities m, b, (Msg.is_valid m).2).

(** ** Definitions used in the statements *)

(** The widths of a run of fields, added up without wrap-around. *)
Definition total_bits (fs : list Field.field_t) : Z :=
  foldr (λ f acc, Field.n_bits (Field.decl f) + acc) 0 fs.

(** The running offset after a run of fields, as [unmarshal_tuple]
    threads it. *)
Definition end_offset (off : Z) (fs : list Field.field_t) : Z :=
  foldl (λ (o : Z) (f : Field.field_t),
           size_t (o + Field.n_bits (Field.decl f)))
    off fs.

(** The callback's events of a decode that saw the fields [seen]. *)
Definition callback_events (m : Msg.msg_t) (seen : list Field.field_t)
  : list Msg.event :=
  match Msg.m_callback m with
  | Some cb => [Msg.callback_called cb seen]
  | None => []
  end.

(** What [validate] leaves in [m_value] when the candidate is [v]: [v]
    itself unless the condition forces another value. *)
Definition stored_value (f : Field.field_t) (v : Z) : Z :=
  match Field.m_condition f with
  | Some c => match (c v).2 with Some x => x | None => v end
  | None => v
  end.

(** The input bit at byte [j], position [p], as 0 or 1; 0 past the end of
    the buffer. *)
Definition bit_at (bytes : list Z) (j p : Z) : Z :=
  Z.land (Z.shiftr (default 0 (read bytes j)) p) 1.

(** The spec's words for the MSB-first mode: for [i] from 0 to
    [n_bits - 1], shift left, then OR in the input bit at byte
    [(bit_offset+i)/8], position [7 - ((bit_offset+i)%8)]. *)
Definition msb_accumulate (bytes : list Z) (bit_offset n_bits : Z) : Z :=
  foldl (λ raw i,
           Z.lor (Z.shiftl raw 1)
             (bit_at bytes ((bit_offset + i) / 8) (7 - (bit_offset + i) mod 8)))
    0 (seqZ 0 n_bits).

(** The loop bodies of [lsb_unmarshal] and [msb_unmarshal]. *)
Definition lsb_step (bytes : list Z) (off : Z) (acc : option Z) (i : Z)
  : option Z :=
  raw ← acc;
  b ← read bytes (i / 8);
  Some (Z.lor raw
          (uint32 (Z.shiftl (Z.land (Z.shiftr b (i mod 8)) 1) (i - off)))).

Definition msb_step (bytes : list Z) (acc : option Z) (i : Z) : option Z :=
  raw ← acc;
  b ← read bytes (i / 8);
  let raw := uint32 (Z.shiftl raw 1) in
  Some (Z.lor raw (Z.land (Z.shiftr b (7 - i mod 8)) 1)).

(** The declarations on which the default upper bound wraps to [-1]: a
    signed 8- or 16-bit value type used at its full width. *)
Definition signed_narrow_full_width (d : Field.field_decl) : Prop :=
  Field.is_signed (Field.T d) = true
  ∧ Field.NBitsT d = Field.sizeof (Field.T d) * 8
  ∧ Field.sizeof (Field.T d) < 4.

(** The values of type [T]. *)
Definition in_range (T : Field.value_type) (v : Z) : Prop :=
  Field.numeric_min T ≤ v ≤ Field.numeric_max T.

(** The two loops of [marshal]: [e i] is the bit of [raw] that iteration
    [i] writes. *)
Definition marshal_fold (raw : Z) (e : Z → Z) (len : nat) (k : Z) : list Z :=
  foldl (λ bytes i,
           Field.or_at bytes (i / 8)
             (Z.shiftl (Z.land (Z.shiftr raw (e i)) 1) (i mod 8)))
    (replicate len 0) (seqZ 0 k).

(** ** Definitions used in the further properties *)

(** Two fields are the same slot when they agree on the declaration and on
    the condition. *)
Definition same_slot (f g : Field.field_t) : Prop :=
  Field.decl g = Field.decl f ∧ Field.m_condition g = Field.m_condition f.

(** Bit [g] of a buffer, counted from bit 0 of byte 0; false outside it. *)
Definition buf_bit (bytes : list Z) (g : Z) : bool :=
  (0 <=? g) && Z.testbit (default 0 (read bytes (g / 8))) (g mod 8).

Definition is_bytes (bytes : list Z) : Prop :=
  Forall (λ b, 0 ≤ b < 256) bytes.

(** The bits of the fields [fs] laid out one after the other from bit
    [o]: bit [g] of the record. *)
Fixpoint layout_bit (fs : list Field.field_t) (o g : Z) : bool :=
  match fs with
  | [] => false
  | f :: rest =>
      buf_bit (Field.marshal f) (g - o)
      || layout_bit rest (o + Field.n_bits (Field.decl f)) g
  end.

(** A field that a decode of its own marshalled bits leaves as it is: within
    its [static_assert]s, LSB-first, valid, holding a non-negative value
    of its type that fits in [n_bits] and that its condition accepts
    without changing it. *)
Definition settled (f : Field.field_t) : Prop :=
  Field.wf_decl (Field.decl f)
  ∧ Field.EndianessT (Field.decl f) = Field.little
  ∧ 0 ≤ Field.m_value f < 2 ^ Field.n_bits (Field.decl f)
  ∧ Field.m_value f ≤ Field.numeric_max (Field.T (Field.decl f))
  ∧ Field.validate f = f
  ∧ Field.m_valid f = true.

(** A message after its two fields were assigned 1 and 0x123. *)
Definition assigned_msg : Msg.msg_t :=
  {| Msg.fields := [Field.assign (Field.between first_f 0 2) 1;
                    Field.assign (Field.any second_f) 0x123];
     Msg.valid := false; Msg.m_callback := None;
     Msg.m_custom_validator := None |}.

(** The loop body of [marshal_tuple]. *)
Definition carry_step (data : list Z) (byte_offset byte_shift : Z)
    (acc : option (list Z * Z)) (i : Z) : option (list Z * Z) :=
  '(bytes, overflow) ← acc;
  b ← read bytes (byte_offset + i);
  d ← read data i;
  let byte := b in
  let byte := uint16 (Z.lor byte overflow) in
  let byte := uint16 (Z.lor byte (Z.shiftl d byte_shift)) in
  let overflow := uint16 (Z.shiftr byte 8) in
  Some (<[Z.to_nat (byte_offset + i) := uint8 byte]> bytes, overflow).

(** Membership of an event in a trace that is written out: go through the
    elements one by one. *)
Ltac in_trace H :=
  repeat (apply elem_of_cons in H as [H|H]; [try done|]);
  try (by apply elem_of_nil in H).

(** ** Structural facts about fields *)

Section FieldFacts.
Import Field.

Lemma validate_decl f : decl (validate f) = decl f.
Proof.
  unfold validate. destruct (m_condition f) as [c|]; [|done].
  destruct (c (m_value f)) as [ok [x|]]; done.
Qed.

Lemma validate_condition f : m_condition (validate f) = m_condition f.
Proof.
  unfold validate. destruct (m_condition f) as [c|] eqn:E; [|by rewrite <- E].
  destruct (c (m_value f)) as [ok [x|]]; simpl; by rewrite E.
Qed.

(** [validate] overwrites [m_valid]: what it was before does not matter. *)
Lemma validate_set_valid f b : validate (set_valid f b) = validate f.
Proof.
  unfold validate; simpl. destruct (m_condition f) as [c|]; [|done].
  destruct (c (m_value f)) as [ok [x|]]; done.
Qed.

Lemma unmarshal_decl f bytes off f' ok :
  unmarshal f bytes off = Some (f', ok) → decl f' = decl f.
Proof.
  unfold unmarshal. destruct (decode_raw _ _ _); simpl; [|done].
  intros [= <- _]. by rewrite validate_decl.
Qed.

Lemma unmarshal_condition f bytes off f' ok :
  unmarshal f bytes off = Some (f', ok) → m_condition f' = m_condition f.
Proof.
  unfold unmarshal. destruct (decode_raw _ _ _); simpl; [|done].
  intros [= <- _]. by rewrite validate_condition.
Qed.

Lemma unmarshal_valid f bytes off f' ok :
  unmarshal f bytes off = Some (f', ok) → m_valid f' = ok.
Proof.
  unfold unmarshal. destruct (decode_raw _ _ _); simpl; [|done].
  by intros [= <- <-].
Qed.

(** Decoding depends on the declaration and the condition of the slot
    only, so a copy decodes like its original. *)
Lemma unmarshal_field_copy f bytes off :
  unmarshal (field_copy f) bytes off = unmarshal f bytes off.
Proof.
  unfold unmarshal; simpl. destruct (decode_raw _ _ _) as [raw|]; [|done].
  simpl. unfold validate; simpl. destruct (m_condition f) as [c|]; [|done].
  destruct (c _) as [ok [x|]]; done.
Qed.

Lemma field_copy_idemp f : field_copy (field_copy f) = field_copy f.
Proof. done. Qed.
End FieldFacts.

(** ** Structural facts about messages *)

Section MsgFacts.
Import Field Msg.

Lemma total_bits_app xs ys :
  total_bits (xs ++ ys) = total_bits xs + total_bits ys.
Proof. induction xs as [|x xs IH]; simpl; lia. Qed.

Lemma total_bits_nonneg fs :
  Forall (λ f, wf_decl (decl f)) fs → 0 ≤ total_bits fs.
Proof.
  induction 1 as [|f fs Hf _ IH]; simpl; [lia|].
  unfold wf_decl, Field.n_bits in *. lia.
Qed.

Lemma size_t_add_l a b : size_t (size_t a + b) = size_t (a + b).
Proof. unfold size_t. by rewrite Zplus_mod_idemp_l. Qed.

Lemma size_t_add_r a b : size_t (a + size_t b) = size_t (a + b).
Proof. unfold size_t. by rewrite Zplus_mod_idemp_r. Qed.

Lemma size_t_small a : 0 ≤ a < 2 ^ 64 → size_t a = a.
Proof. intros. unfold size_t. by apply Z.mod_small. Qed.

Lemma sum_bits_total fs :
  Forall (λ f, wf_decl (decl f)) fs →
  sum_bits (decl <$> fs) = size_t (total_bits fs).
Proof.
  induction 1 as [|f fs Hf Hfs IH]; [done|].
  destruct fs as [|g fs].
  - simpl. rewrite Z.add_0_r, size_t_small; [done|].
    unfold wf_decl, Field.n_bits in *. destruct (T (decl f)); simpl in *; lia.
  - change (sum_bits (decl <$> f :: g :: fs))
      with (size_t (Field.n_bits (decl f) + sum_bits (decl <$> g :: fs))).
    rewrite IH. by rewrite size_t_add_r.
Qed.

Lemma unmarshal_tuple_length bytes off fs fs' tr r :
  unmarshal_tuple bytes off fs = Some (fs', tr, r) → length fs' = length fs.
Proof.
  revert off fs' tr r. induction fs as [|f fs IH]; intros off fs' tr r; simpl.
  - by intros [= <- _ _].
  - destruct (Field.unmarshal f bytes off) as [[f1 ok]|]; simpl; [|done].
    destruct ok; simpl.
    + destruct (unmarshal_tuple _ _ fs) as [[[fs1 tr1] r1]|] eqn:E;
        simpl; [|done].
      intros [= <- _ _]. simpl. f_equal. eauto.
    + by intros [= <- _ _].
Qed.

Lemma end_offset_app off xs ys :
  end_offset off (xs ++ ys) = end_offset (end_offset off xs) ys.
Proof. apply foldl_app. Qed.

Lemma end_offset_total off fs :
  0 ≤ off < 2 ^ 64 → end_offset off fs = size_t (off + total_bits fs).
Proof.
  intros Hoff. rewrite <- (size_t_small off) at 1 by done.
  revert off Hoff. induction fs as [|f fs IH]; intros off Hoff; simpl.
  - by rewrite Z.add_0_r.
  - rewrite size_t_add_l.
    rewrite <- (size_t_small (size_t _)) at 1
      by (unfold size_t; apply Z.mod_pos_bound; lia).
    rewrite IH by (unfold size_t; apply Z.mod_pos_bound; lia).
    rewrite size_t_add_l. f_equal. lia.
Qed.

(** Decoding a concatenation: the first run, and, if it succeeds, the
    second run at the offset the first one ends at. *)
Lemma unmarshal_tuple_app bytes off xs ys :
  unmarshal_tuple bytes off (xs ++ ys) =
    match unmarshal_tuple bytes off xs with
    | Some (xs', tr, true) =>
        match unmarshal_tuple bytes (end_offset off xs) ys with
        | Some (ys', tr2, r2) => Some (xs' ++ ys', tr ++ tr2, r2)
        | None => None
        end
    | Some (xs', tr, false) => Some (xs' ++ ys, tr, false)
    | None => None
    end.
Proof.
  revert off. induction xs as [|x xs IH]; intros off; simpl.
  - destruct (unmarshal_tuple bytes off ys) as [[[ys' tr2] r2]|]; done.
  - destruct (Field.unmarshal x bytes off) as [[x' ok]|] eqn:Ex;
      simpl; [|done].
    destruct ok; simpl; [|done].
    rewrite IH. rewrite (unmarshal_decl _ _ _ _ _ Ex).
    destruct (unmarshal_tuple bytes _ xs) as [[[xs' tr] r]|]; simpl; [|done].
    destruct r; simpl; [|done].
    destruct (unmarshal_tuple bytes _ ys) as [[[ys' tr2] r2]|]; done.
Qed.

(** A successful run logs nothing and leaves every field valid. *)
Lemma unmarshal_tuple_true bytes off fs fs' tr :
  unmarshal_tuple bytes off fs = Some (fs', tr, true) →
  tr = [] ∧ Forall (λ f, m_valid f = true) fs'.
Proof.
  revert off fs' tr. induction fs as [|f fs IH]; intros off fs' tr; simpl.
  - by intros [= <- <-].
  - destruct (Field.unmarshal f bytes off) as [[f1 ok]|] eqn:Ef;
      simpl; [|done].
    destruct ok; simpl; [|done].
    destruct (unmarshal_tuple _ _ fs) as [[[fs1 tr1] r1]|] eqn:E;
      simpl; [|done].
    intros [= <- <- ->]. destruct (IH _ _ _ E) as [-> Hall].
    split; [done|]. constructor; [|done].
    by apply (unmarshal_valid _ _ _ _ _ Ef).
Qed.

(** A failed run logs the failing field and nothing else. *)
Lemma unmarshal_tuple_false bytes off fs fs' tr :
  unmarshal_tuple bytes off fs = Some (fs', tr, false) →
  ∃ i, tr = [on_error_unmarshal i].
Proof.
  revert off fs' tr. induction fs as [|f fs IH]; intros off fs' tr; simpl.
  - done.
  - destruct (Field.unmarshal f bytes off) as [[f1 ok]|] eqn:Ef;
      simpl; [|done].
    destruct ok; simpl.
    + destruct (unmarshal_tuple _ _ fs) as [[[fs1 tr1] r1]|] eqn:E;
        simpl; [|done].
      intros [= <- <- ->]. eauto.
    + intros [= <- <-]. eauto.
Qed.

Lemma is_valid_tuple_false fs f :
  f ∈ fs → m_valid f = false → (is_valid_tuple fs).2 = false.
Proof.
  induction 1 as [f fs|f g fs Hin IH]; intros Hf; simpl.
  - unfold Field.is_valid. by rewrite Hf.
  - destruct (Field.is_valid g); simpl; auto.
Qed.

Lemma is_valid_tuple_true fs :
  Forall (λ f, m_valid f = true) fs → is_valid_tuple fs = ([], true).
Proof.
  induction 1 as [|f fs Hf _ IH]; simpl; [done|].
  unfold Field.is_valid. by rewrite Hf.
Qed.
End MsgFacts.

(** ** The message decode pipeline *)

Section Pipeline.
Import Field Msg.

(** The events of the part after the size check, by outcome of the
    field run. *)
Lemma on_unmarshal_decode_true m bytes off fs' :
  unmarshal_tuple bytes off (fields m) = Some (fs', [], true) →
  on_unmarshal_decode m bytes off =
    match m_custom_validator m with
    | Some cv =>
        if cv fs' then
          Some (Msg.set_valid (set_fields m fs') true,
                [on_unmarshal_end; custom_validator_called fs'] ++
                match m_callback m with
                | Some cb => [callback_called cb fs']
                | None => []
                end, true)
        else
          Some (Msg.set_valid (set_fields m fs') false,
                [on_unmarshal_end; custom_validator_called fs'], false)
    | None =>
        Some (Msg.set_valid (set_fields m fs') true,
              on_unmarshal_end ::
              match m_callback m with
              | Some cb => [callback_called cb fs']
              | None => []
              end, true)
    end.
Proof.
  intros E. unfold on_unmarshal_decode. rewrite E. simpl.
  destruct (m_custom_validator m) as [cv|]; simpl.
  - destruct (cv fs'); simpl; by destruct (m_callback m).
  - by destruct (m_callback m).
Qed.

Lemma on_unmarshal_decode_false m bytes off fs' tr :
  unmarshal_tuple bytes off (fields m) = Some (fs', tr, false) →
  on_unmarshal_decode m bytes off =
    Some (Msg.set_valid (set_fields m fs') false,
          tr ++ [on_unmarshal_end], false).
Proof.
  intros E. unfold on_unmarshal_decode. rewrite E. simpl.
  destruct (m_custom_validator m) as [cv|]; simpl;
    by destruct (m_callback m).
Qed.
End Pipeline.

(** When [len * 8 - bit_offset], as [on_unmarshal] computes it, is below
    the message's [n_bits], the call returns false without decoding: the
    only events are the start hook and one bit-size error, the fields are
    exactly those of before the call, and [valid] is false. *)
Lemma on_unmarshal_guard_taken (m : Msg.msg_t) (bytes : list Z) (len bit_offset : Z) :
  Msg.bits_available len bit_offset < Msg.n_bits m →
  ∃ m',
    Msg.unmarshal m bytes len bit_offset =
      Some (m',
            [Msg.on_unmarshal_start;
             Msg.on_error_bit_size (Msg.bits_available len bit_offset)
               (Msg.n_bits m)],
            false)
    ∧ Msg.fields m' = Msg.fields m
    ∧ Msg.valid m' = false
    ∧ Msg.m_callback m' = Msg.m_callback m
    ∧ Msg.m_custom_validator m' = Msg.m_custom_validator m.
Proof.
  intros Hshort. exists (Msg.set_valid m false).
  unfold Msg.unmarshal, Msg.on_unmarshal.
  destruct (Z.ltb_spec (Msg.bits_available len bit_offset) (Msg.n_bits m));
    [|lia].
  repeat split.
Qed.

(** C3.  The size check of [on_unmarshal] misses offsets past the buffer.
    For the 16-bit example message, [len = 0] and [bit_offset = 8], the
    difference [len * 8 - bit_offset] is -8, which is below [n_bits]; the
    code computes it in [std::size_t], where it is [2^64 - 8].  The
    buffer-too-short branch is not taken: no bit-size error is reported,
    both fields are decoded from the bytes after the offset and become
    valid, [valid] is set and the call returns true after running the
    callback. *)
Theorem on_unmarshal_too_short_offset_past_buffer :
  0 * 8 - 8 < Msg.n_bits example_msg
  ∧ Msg.bits_available 0 8 = 2 ^ 64 - 8
  ∧ values example_msg = [0; 0]
  ∧ validities example_msg = [false; false]
  ∧ ∃ m' tr,
      Msg.unmarshal example_msg [0xFF; 0x80; 0x0A; 0x00] 0 8
        = Some (m', tr, true)
      ∧ tr = [Msg.on_unmarshal_start; Msg.on_unmarshal_end;
              Msg.callback_called 0 (Msg.fields m')]
      ∧ values m' = [0; 168]
      ∧ validities m' = [true; true]
      ∧ Msg.valid m' = true.
Proof.
  split; [vm_compute; reflexivity|]. split; [vm_compute; reflexivity|].
  split; [reflexivity|]. split; [reflexivity|].
  eexists _, _. split; [vm_compute; reflexivity|]. repeat split.
Qed.

(** C5.  When the size check passes and every field decodes validly: a
    custom validator that rejects makes the call return false with no
    callback event; a validator that accepts, or no validator, makes the
    call return true, and the callback, if there is one, runs once, last,
    on the decoded fields.  In any call, a callback event implies that the
    size check passed, every field decoded validly and the validator was
    absent or accepted. *)
Theorem on_unmarshal_validator_then_callback
    (m : Msg.msg_t) (bytes : list Z) (len bit_offset : Z) :
  (∀ fs' tr0,
     (Msg.bits_available len bit_offset <? Msg.n_bits m) = false →
     Msg.unmarshal_tuple bytes bit_offset (Msg.fields m) = Some (fs', tr0, true) →
     let populated := Msg.set_fields m fs' in
     match Msg.m_custom_validator m with
     | Some cv =>
         if cv fs' then
           Msg.unmarshal m bytes len bit_offset =
             Some (Msg.set_valid populated true,
                   [Msg.on_unmarshal_start; Msg.on_unmarshal_end;
                    Msg.custom_validator_called fs'] ++ callback_events m fs',
                   true)
         else
           Msg.unmarshal m bytes len bit_offset =
             Some (Msg.set_valid populated false,
                   [Msg.on_unmarshal_start; Msg.on_unmarshal_end;
                    Msg.custom_validator_called fs'],
                   false)
     | None =>
         Msg.unmarshal m bytes len bit_offset =
           Some (Msg.set_valid populated true,
                 [Msg.on_unmarshal_start; Msg.on_unmarshal_end]
                   ++ callback_events m fs',
                 true)
     end)
  ∧ (∀ m' tr r cb seen,
       Msg.unmarshal m bytes len bit_offset = Some (m', tr, r) →
       Msg.callback_called cb seen ∈ tr →
       r = true
       ∧ Msg.m_callback m = Some cb
       ∧ (Msg.bits_available len bit_offset <? Msg.n_bits m) = false
       ∧ Msg.unmarshal_tuple bytes bit_offset (Msg.fields m)
           = Some (seen, [], true)
       ∧ (Msg.m_custom_validator m = None
          ∨ ∃ cv, Msg.m_custom_validator m = Some cv ∧ cv seen = true)).
Proof.
  split.
  - intros fs' tr0 Hsize Hrun populated.
    destruct (unmarshal_tuple_true _ _ _ _ _ Hrun) as [-> _].
    unfold Msg.unmarshal, Msg.on_unmarshal. rewrite Hsize.
    rewrite (on_unmarshal_decode_true _ _ _ _ Hrun).
    unfold callback_events.
    destruct (Msg.m_custom_validator m) as [cv|]; [destruct (cv fs')|]; done.
  - intros m' tr r cb seen. unfold Msg.unmarshal, Msg.on_unmarshal.
    destruct (_ <? _) eqn:Hsize.
    { intros [= <- <- <-] Hin. in_trace Hin. }
    destruct (Msg.unmarshal_tuple bytes bit_offset (Msg.fields m))
      as [[[fs' tr0] [|]]|] eqn:Hrun.
    + destruct (unmarshal_tuple_true _ _ _ _ _ Hrun) as [-> _].
      rewrite (on_unmarshal_decode_true _ _ _ _ Hrun).
      destruct (Msg.m_custom_validator m) as [cv|] eqn:Hcv;
        [destruct (cv fs') eqn:Hacc|];
        destruct (Msg.m_callback m) as [cb'|]; simpl;
        intros [= <- <- <-] Hin; in_trace Hin;
        injection Hin as -> ->; eauto 10.
    + destruct (unmarshal_tuple_false _ _ _ _ _ Hrun) as [i ->].
      rewrite (on_unmarshal_decode_false _ _ _ _ _ Hrun). simpl.
      intros [= <- <- <-] Hin. in_trace Hin.
    + unfold Msg.on_unmarshal_decode. rewrite Hrun. done.
Qed.

Lemma on_unmarshal_validator_then_callback_witness :
  ∃ fs',
    Msg.unmarshal_tuple [0x80; 0x0A] 0 (Msg.fields example_msg)
      = Some (fs', [], true)
    ∧ Msg.unmarshal example_msg [0x80; 0x0A] 2 0 =
        Some (Msg.set_valid (Msg.set_fields example_msg fs') true,
              [Msg.on_unmarshal_start; Msg.on_unmarshal_end;
               Msg.callback_called 0 fs'],
              true).
Proof.
  eexists. split; [vm_compute; reflexivity|].
  apply (proj1 (on_unmarshal_validator_then_callback
                  example_msg [0x80; 0x0A] 2 0) _ []);
    vm_compute; reflexivity.
Defined.

(** C4.  Let the size check pass, the fields before the k-th decode
    validly, and the k-th field's [unmarshal] report invalid.  Then the call
    returns false; the events are start, the unmarshal error of that field
    and end, so neither the custom validator nor the callback runs; the
    k-th field holds the decoded value as its condition left it and is
    marked invalid; the fields after it are those of before the call; and
    [is_valid()] is false afterwards, again without a validator run. *)
Theorem on_unmarshal_field_abort
    (m : Msg.msg_t) (bytes : list Z) (len bit_offset : Z)
    (pre post pre' : list Field.field_t) (fk fk' : Field.field_t)
    (tr0 : list Msg.event) :
  Msg.fields m = pre ++ fk :: post →
  (Msg.bits_available len bit_offset <? Msg.n_bits m) = false →
  Msg.unmarshal_tuple bytes bit_offset pre = Some (pre', tr0, true) →
  Field.unmarshal fk bytes (end_offset bit_offset pre) = Some (fk', false) →
  ∃ m',
    Msg.unmarshal m bytes len bit_offset =
      Some (m',
            [Msg.on_unmarshal_start; Msg.on_error_unmarshal (Field.id fk);
             Msg.on_unmarshal_end],
            false)
    ∧ Msg.fields m' = pre' ++ fk' :: post
    ∧ (∃ raw,
         Field.decode_raw (Field.decl fk) bytes (end_offset bit_offset pre)
           = Some raw
         ∧ Field.m_value fk'
           = stored_value fk (Field.static_cast (Field.T (Field.decl fk)) raw))
    ∧ Field.m_valid fk' = false
    ∧ Msg.valid m' = false
    ∧ (Msg.is_valid m').2 = false
    ∧ (∀ seen, Msg.custom_validator_called seen ∉ (Msg.is_valid m').1).
Proof.
  intros Hfields Hsize Hpre Hk.
  destruct (unmarshal_tuple_true _ _ _ _ _ Hpre) as [-> Hvalid].
  assert (Hrun : Msg.unmarshal_tuple bytes bit_offset (Msg.fields m)
                 = Some (pre' ++ fk' :: post,
                         [Msg.on_error_unmarshal (Field.id fk)], false)).
  { rewrite Hfields, unmarshal_tuple_app, Hpre. simpl. rewrite Hk. simpl.
    unfold Field.id. by rewrite (unmarshal_decl _ _ _ _ _ Hk). }
  pose proof (unmarshal_valid _ _ _ _ _ Hk) as Hinv.
  exists (Msg.set_valid (Msg.set_fields m (pre' ++ fk' :: post)) false).
  unfold Msg.unmarshal, Msg.on_unmarshal. rewrite Hsize.
  rewrite (on_unmarshal_decode_false _ _ _ _ _ Hrun). simpl.
  assert (Hiv : (Msg.is_valid_tuple (pre' ++ fk' :: post)).2 = false).
  { apply (is_valid_tuple_false _ fk'); [|done].
    apply elem_of_app. right. apply elem_of_cons. by left. }
  repeat split; try done.
  - revert Hk. unfold Field.unmarshal.
    destruct (Field.decode_raw _ _ _) as [raw|]; simpl; [|done].
    intros [= <- _]. exists raw. split; [done|].
    unfold stored_value, Field.validate. simpl.
    destruct (Field.m_condition fk) as [c|]; [|done].
    destruct (c _) as [ok [x|]]; done.
  - unfold Msg.is_valid. simpl.
    destruct (Msg.is_valid_tuple _) as [tr [|]]; [done|].
    by destruct (Msg.m_custom_validator m).
  - intros seen. unfold Msg.is_valid. simpl.
    destruct (Msg.is_valid_tuple (pre' ++ fk' :: post)) as [tr v] eqn:E.
    simpl in Hiv. subst v.
    assert (Htr : ∀ fs tr0 v0, Msg.is_valid_tuple fs = (tr0, v0) →
                   Msg.custom_validator_called seen ∉ tr0).
    { clear. induction fs as [|f fs IH]; simpl; intros tr0 v0.
      - intros [= <- _]. apply not_elem_of_nil.
      - destruct (Field.is_valid f); simpl; [by eauto|].
        intros [= <- _] Hin. in_trace Hin. }
    destruct (Msg.m_custom_validator m); simpl; eauto.
Qed.

Lemma on_unmarshal_field_abort_witness :
  ∃ m' fk',
    Msg.unmarshal example_msg [0x84; 0x0A] 2 0 =
      Some (m',
            [Msg.on_unmarshal_start; Msg.on_error_unmarshal 0;
             Msg.on_unmarshal_end],
            false)
    ∧ Msg.fields m' = [fk'; Field.field_copy (Field.any second_f)]
    ∧ Field.m_value fk' = 4
    ∧ Field.m_valid fk' = false
    ∧ (Msg.is_valid m').2 = false.
Proof.
  destruct (on_unmarshal_field_abort example_msg [0x84; 0x0A] 2 0
              [] [Field.field_copy (Field.any second_f)] []
              (Field.field_copy (Field.between first_f 0 2))
              (Field.validate
                 (Field.set_value
                    (Field.field_copy (Field.between first_f 0 2)) 4))
              [])
    as (m' & Hcall & Hfs & (raw & Hraw & Hval) & Hinv & _ & Hiv & _);
    [reflexivity | reflexivity | reflexivity | reflexivity |].
  exists m', (Field.validate
                (Field.set_value
                   (Field.field_copy (Field.between first_f 0 2)) 4)).
  repeat split; [exact Hcall | exact Hfs | exact Hiv].
Defined.

(** ** The size check under wrap-around *)

Lemma bits_available_wrapped len bit_offset :
  0 ≤ len → 8 * len < bit_offset < 2 ^ 64 →
  Msg.bits_available len bit_offset = 2 ^ 64 - (bit_offset - len * 8).
Proof.
  intros Hlen Hoff. unfold Msg.bits_available.
  rewrite (size_t_small (len * 8)) by lia.
  unfold size_t.
  replace (len * 8 - bit_offset)
    with (2 ^ 64 - (bit_offset - len * 8) + (-1) * 2 ^ 64) by lia.
  rewrite Z.mod_add by lia. apply Z.mod_small. lia.
Qed.

Lemma on_unmarshal_events_no_bit_size m bytes off m' tr r got expected :
  Msg.on_unmarshal_decode m bytes off = Some (m', tr, r) →
  Msg.on_error_bit_size got expected ∉ tr.
Proof.
  destruct (Msg.unmarshal_tuple bytes off (Msg.fields m))
    as [[[fs' tr0] [|]]|] eqn:Hrun.
  - destruct (unmarshal_tuple_true _ _ _ _ _ Hrun) as [-> _].
    rewrite (on_unmarshal_decode_true _ _ _ _ Hrun).
    destruct (Msg.m_custom_validator m) as [cv|]; [destruct (cv fs')|];
      destruct (Msg.m_callback m); simpl;
      intros [= <- <- <-] Hin; in_trace Hin.
  - destruct (unmarshal_tuple_false _ _ _ _ _ Hrun) as [i ->].
    rewrite (on_unmarshal_decode_false _ _ _ _ _ Hrun). simpl.
    intros [= <- <- <-] Hin. in_trace Hin.
  - unfold Msg.on_unmarshal_decode. rewrite Hrun. done.
Qed.

(** C10, as the code has it.  With [8*len < bit_offset] and
    [bit_offset - 8*len <= 2^64 - n_bits], the subtraction wraps to
    [2^64 - (bit_offset - 8*len)], which is not below [n_bits]: the
    buffer-too-short branch is not taken, the call is the decode of the
    fields at [bit_offset], and no bit-size error is reported. *)
Theorem on_unmarshal_offset_past_length
    (m : Msg.msg_t) (bytes : list Z) (len bit_offset : Z) :
  0 ≤ len → 8 * len < bit_offset < 2 ^ 64 →
  bit_offset - 8 * len ≤ 2 ^ 64 - Msg.n_bits m →
  Msg.bits_available len bit_offset = 2 ^ 64 - (bit_offset - len * 8)
  ∧ (Msg.bits_available len bit_offset <? Msg.n_bits m) = false
  ∧ Msg.unmarshal m bytes len bit_offset =
      ('(m', tr, r) ← Msg.on_unmarshal_decode m bytes bit_offset;
       Some (m', Msg.on_unmarshal_start :: tr, r))
  ∧ (∀ m' tr r got expected,
       Msg.unmarshal m bytes len bit_offset = Some (m', tr, r) →
       Msg.on_error_bit_size got expected ∉ tr).
Proof.
  intros Hlen Hoff Hn.
  pose proof (bits_available_wrapped len bit_offset Hlen Hoff) as Hw.
  assert (Hsize : (Msg.bits_available len bit_offset <? Msg.n_bits m) = false)
    by (apply Z.ltb_ge; lia).
  repeat split; [done | done | |].
  - unfold Msg.unmarshal, Msg.on_unmarshal. by rewrite Hsize.
  - intros m' tr r got expected.
    unfold Msg.unmarshal, Msg.on_unmarshal. rewrite Hsize.
    destruct (Msg.on_unmarshal_decode m bytes bit_offset)
      as [[[m1 tr1] r1]|] eqn:E; simpl; [|done].
    intros [= <- <- <-] Hin. apply elem_of_cons in Hin as [Hin|Hin]; [done|].
    by apply (on_unmarshal_events_no_bit_size _ _ _ _ _ _ _ _ E) in Hin.
Qed.

(** A caller that passes [len = 0] and [bit_offset = 8] for a buffer of
    four bytes: the message is decoded from the second byte on. *)
Lemma on_unmarshal_offset_past_length_witness :
  Msg.bits_available 0 8 = 2 ^ 64 - 8
  ∧ summary (Msg.unmarshal example_msg [0xFF; 0x80; 0x0A; 0x00] 0 8)
    = Some ([0; 168], [true; true], true, true).
Proof.
  destruct (on_unmarshal_offset_past_length
              example_msg [0xFF; 0x80; 0x0A; 0x00] 0 8)
    as (Hw & _ & Hcall & _); [lia | lia | vm_compute; discriminate |].
  split; [exact Hw|]. rewrite Hcall. vm_compute. reflexivity.
Defined.

(** The claim C10 as stated fails for offsets close to [2^64]: with one
    byte and [bit_offset = 2^64 - 1] the subtraction wraps to 9, which is
    below the 16 bits of the message, and the bit-size error is reported. *)
Lemma on_unmarshal_offset_past_length_counterexample :
  8 * 1 < 2 ^ 64 - 1
  ∧ ∃ m',
      Msg.unmarshal example_msg [0x84; 0x0A] 1 (2 ^ 64 - 1) =
        Some (m', [Msg.on_unmarshal_start; Msg.on_error_bit_size 9 16], false).
Proof. split; [lia|]. eexists. vm_compute. reflexivity. Qed.

(** ** Declaration order and running offsets *)

Section Offsets.
Import Field Msg.

(** The fields a run of [unmarshal_tuple] reaches are a prefix of the
    list; each is decoded at the offset the fields before it end at, and
    the others are left as they were.  A run that returns true reaches
    every field; one that returns false ends at an invalid field. *)
Lemma unmarshal_tuple_offsets bytes off fs fs' tr r :
  unmarshal_tuple bytes off fs = Some (fs', tr, r) →
  ∃ n : nat,
    (n ≤ length fs)%nat
    ∧ drop n fs' = drop n fs
    ∧ (if r then n = length fs
       else ∃ f', fs' !! (n - 1)%nat = Some f' ∧ m_valid f' = false
                  ∧ (0 < n)%nat)
    ∧ ∀ (k : nat) f, (k < n)%nat → fs !! k = Some f →
        ∃ f', fs' !! k = Some f'
              ∧ Field.unmarshal f bytes (end_offset off (take k fs))
                = Some (f', m_valid f').
Proof.
  revert off fs' tr r.
  induction fs as [|f fs IH]; intros off fs' tr r; simpl.
  - intros [= <- _ <-]. exists 0%nat. repeat split; [lia|]. intros; lia.
  - destruct (Field.unmarshal f bytes off) as [[f1 ok]|] eqn:Ef;
      simpl; [|done].
    pose proof (unmarshal_valid _ _ _ _ _ Ef) as Hv.
    destruct ok; simpl.
    + destruct (unmarshal_tuple _ _ fs) as [[[fs1 tr1] r1]|] eqn:E;
        simpl; [|done].
      intros [= <- <- <-].
      destruct (IH _ _ _ _ E) as (n & Hn & Hdrop & Hr & Hk).
      exists (S n). repeat split; [simpl; lia | done | |].
      * destruct r1; [by rewrite Hr|].
        destruct Hr as (f' & Hf' & Hinv & Hpos).
        exists f'. repeat split; [|done|lia].
        replace (S n - 1)%nat with (S (n - 1)) by lia. done.
      * intros [|k] g Hlt; simpl.
        -- intros [= <-]. exists f1. by rewrite Hv.
        -- intros Hg. rewrite <- (unmarshal_decl _ _ _ _ _ Ef).
           apply Hk; [lia|done].
    + intros [= <- _ <-]. exists 1%nat. repeat split; [simpl; lia | |].
      * exists f1. repeat split; [done|lia].
      * intros [|k] g Hlt; [|lia]. simpl. intros [= <-].
        exists f1. by rewrite Hv.
Qed.
End Offsets.




(** ** Concatenated messages *)

Section Concatenation.
Import Field Msg.

Lemma total_bits_field_copy fs : total_bits (field_copy <$> fs) = total_bits fs.
Proof.
  induction fs as [|f fs IH]; [done|]. rewrite fmap_cons.
  change (total_bits (field_copy f :: (field_copy <$> fs)))
    with (Field.n_bits (decl f) + total_bits (field_copy <$> fs)).
  by rewrite IH.
Qed.

Lemma end_offset_field_copy off fs :
  end_offset off (field_copy <$> fs) = end_offset off fs.
Proof. revert off. induction fs as [|f fs IH]; intros off; simpl; done. Qed.

Lemma fields_make_msg_cat cb A D :
  fields (make_msg_cat cb A D)
  = (field_copy <$> fields A) ++ (field_copy <$> D).
Proof.
  unfold make_msg_cat, _make_msg_cat, msg_of_fields. simpl.
  rewrite <- list_fmap_compose, fmap_app, <- list_fmap_compose.
  f_equal.
Qed.

Lemma unmarshal_tuple_cons bytes off f rest :
  unmarshal_tuple bytes off (f :: rest) =
    '(f', ok) ← Field.unmarshal f bytes off;
    if negb ok then Some (f' :: rest, [on_error_unmarshal (id f')], false)
    else
      '(rest', tr, r) ←
        unmarshal_tuple bytes (size_t (off + Field.n_bits (decl f'))) rest;
      Some (f' :: rest', tr, r).
Proof. done. Qed.

(** A field whose predecessors are all valid after a run was reached by
    the run: it is the decode of its slot at the offset the fields before
    it end at. *)
Lemma unmarshal_tuple_reached bytes off fs fs' tr r (i : nat) fC :
  unmarshal_tuple bytes off fs = Some (fs', tr, r) →
  fs' !! i = Some fC →
  (∀ (j : nat) g, (j < i)%nat → fs' !! j = Some g → m_valid g = true) →
  ∃ f, fs !! i = Some f
       ∧ Field.unmarshal f bytes (end_offset off (take i fs))
         = Some (fC, m_valid fC).
Proof.
  intros Hrun Hi Hpre.
  pose proof (unmarshal_tuple_length _ _ _ _ _ _ Hrun) as Hlen.
  destruct (unmarshal_tuple_offsets _ _ _ _ _ _ Hrun)
    as (n & Hn & _ & Hr & Hk).
  assert (Hin : (i < n)%nat).
  { destruct r.
    - subst n. rewrite <- Hlen. by apply lookup_lt_Some in Hi.
    - destruct Hr as (f' & Hf' & Hinv & Hpos).
      destruct (decide (i < n)%nat) as [|Hge]; [done|].
      rewrite (Hpre (n - 1)%nat f') in Hinv; [done | lia | done]. }
  destruct (lookup_lt_is_Some_2 fs i) as [f Hf]; [lia|].
  exists f. split; [done|].
  destruct (Hk i f Hin Hf) as (f' & Hf' & Hdec).
  rewrite Hi in Hf'. by injection Hf' as <-.
Qed.

(** A run over copies and the run over the originals: the same events and
    result, and the same field wherever the fields before it are valid. *)
Lemma unmarshal_tuple_field_copy bytes off fs fs' tr r :
  unmarshal_tuple bytes off (field_copy <$> fs) = Some (fs', tr, r) →
  ∃ fs'',
    unmarshal_tuple bytes off fs = Some (fs'', tr, r)
    ∧ ∀ i : nat,
        (∀ (j : nat) g, (j < i)%nat → fs' !! j = Some g → m_valid g = true) →
        fs'' !! i = fs' !! i.
Proof.
  revert off fs' tr r. induction fs as [|f fs IH]; intros off fs' tr r.
  - intros [= <- <- <-]. by exists [].
  - rewrite fmap_cons, !unmarshal_tuple_cons, unmarshal_field_copy.
    destruct (Field.unmarshal f bytes off) as [[f1 ok]|] eqn:Ef;
      simpl; [|done].
    pose proof (unmarshal_valid _ _ _ _ _ Ef) as Hv.
    destruct ok; simpl.
    + destruct (unmarshal_tuple _ _ (field_copy <$> fs))
        as [[[fs1 tr1] r1]|] eqn:E; simpl; [|done].
      intros [= <- <- <-].
      destruct (IH _ _ _ _ E) as (fs2 & -> & Hsame). simpl.
      exists (f1 :: fs2). split; [done|].
      intros [|i] Hpre; [done|]. simpl. apply Hsame.
      intros j g Hj Hg. apply (Hpre (S j) g); [lia | done].
    + intros [= <- <- <-]. exists (f1 :: fs). split; [done|].
      intros [|i] Hpre; [done|].
      rewrite (Hpre 0%nat f1) in Hv; [done | lia | done].
Qed.

(** The fields [on_unmarshal_decode] leaves are those of the run. *)
Lemma on_unmarshal_decode_fields m bytes off fs' tr0 r0 :
  unmarshal_tuple bytes off (fields m) = Some (fs', tr0, r0) →
  ∃ m' tr r,
    on_unmarshal_decode m bytes off = Some (m', tr, r)
    ∧ fields m' = fs' ∧ (r = true → r0 = true).
Proof.
  intros Hrun. destruct r0.
  - destruct (unmarshal_tuple_true _ _ _ _ _ Hrun) as [-> _].
    rewrite (on_unmarshal_decode_true _ _ _ _ Hrun).
    destruct (m_custom_validator m) as [cv|]; [destruct (cv fs')|];
      eexists _, _, _; (split; [reflexivity|done]).
  - rewrite (on_unmarshal_decode_false _ _ _ _ _ Hrun).
    eexists _, _, _. split; [reflexivity|done].
Qed.
End Concatenation.

(** C8, as the code has it.  The message built by [make_msg_cat] from [A]
    and the fields [D] has [A.n_fields] plus the count of [D] fields.  When
    a buffer passes its size check, unmarshalling it yields, for every
    field up to and including the first one it rejects (a field whose
    predecessors are all valid; every field when the call returns true),
    the same value and validity as unmarshalling [A] over that buffer, for
    a field of the first part, and as unmarshalling the field of [D] on its
    own at [bit_offset + A.n_bits] plus the widths of the [D] fields before
    it, for a field of the second part. *)
Theorem make_msg_cat_unmarshal
    (cb : option nat) (A : Msg.msg_t) (D : list Field.field_t)
    (bytes : list Z) (len bit_offset : Z)
    (mC : Msg.msg_t) (tr : list Msg.event) (r : bool) :
  Forall (λ f, Field.wf_decl (Field.decl f)) (Msg.fields A ++ D) →
  total_bits (Msg.fields A ++ D) < 2 ^ 64 →
  0 ≤ bit_offset < 2 ^ 64 →
  Msg.n_fields (Msg.make_msg_cat cb A D) = (Msg.n_fields A + length D)%nat
  ∧ (Msg.n_bits (Msg.make_msg_cat cb A D) ≤ Msg.bits_available len bit_offset →
     Msg.unmarshal (Msg.make_msg_cat cb A D) bytes len bit_offset
       = Some (mC, tr, r) →
     (r = true → Forall (λ f, Field.m_valid f = true) (Msg.fields mC))
     ∧ length (Msg.fields mC) = (Msg.n_fields A + length D)%nat
     ∧ ∃ mA trA rA,
         Msg.unmarshal A bytes len bit_offset = Some (mA, trA, rA)
         ∧ length (Msg.fields mA) = Msg.n_fields A
         ∧ ∀ (i : nat) fC,
             Msg.fields mC !! i = Some fC →
             (∀ (j : nat) g, (j < i)%nat →
                Msg.fields mC !! j = Some g → Field.m_valid g = true) →
             ((i < Msg.n_fields A)%nat → Msg.fields mA !! i = Some fC)
             ∧ ∀ (k : nat) d,
                 i = (Msg.n_fields A + k)%nat → D !! k = Some d →
                 Field.unmarshal d bytes
                   (size_t (bit_offset + Msg.n_bits A
                            + total_bits (take k D)))
                 = Some (fC, Field.m_valid fC)).
Proof.
  intros Hwf Htotal Hoff.
  apply Forall_app in Hwf as [HwfA HwfD].
  pose proof (total_bits_nonneg _ HwfA) as HA0.
  pose proof (total_bits_nonneg _ HwfD) as HD0.
  rewrite total_bits_app in Htotal.
  split.
  { unfold Msg.n_fields. rewrite fields_make_msg_cat.
    by rewrite length_app, !length_fmap. }
  assert (HnA : Msg.n_bits A = total_bits (Msg.fields A)).
  { unfold Msg.n_bits. rewrite sum_bits_total by done.
    apply size_t_small. lia. }
  assert (HnC : Msg.n_bits (Msg.make_msg_cat cb A D)
                = total_bits (Msg.fields A) + total_bits D).
  { unfold Msg.n_bits. rewrite fields_make_msg_cat, sum_bits_total.
    - rewrite total_bits_app, !total_bits_field_copy. apply size_t_small. lia.
    - apply Forall_app. split; apply Forall_fmap;
        (eapply Forall_impl; [eassumption|done]). }
  intros HsizeC. unfold Msg.unmarshal, Msg.on_unmarshal.
  destruct (Z.ltb_spec (Msg.bits_available len bit_offset)
              (Msg.n_bits (Msg.make_msg_cat cb A D))) as [|_]; [lia|].
  destruct (Z.ltb_spec (Msg.bits_available len bit_offset) (Msg.n_bits A))
    as [|_]; [lia|].
  destruct (Msg.unmarshal_tuple bytes bit_offset
              (Msg.fields (Msg.make_msg_cat cb A D)))
    as [[[fsC trC] rC]|] eqn:HrunC.
  2:{ unfold Msg.on_unmarshal_decode. rewrite HrunC. done. }
  destruct (on_unmarshal_decode_fields _ _ _ _ _ _ HrunC)
    as (m1 & tr1 & r1 & -> & Hm1 & Hr1). simpl.
  intros [= <- _ <-]. rewrite Hm1. clear m1 Hm1.
  split.
  { intros Hr. rewrite (Hr1 Hr) in HrunC.
    by destruct (unmarshal_tuple_true _ _ _ _ _ HrunC). }
  split.
  { rewrite (unmarshal_tuple_length _ _ _ _ _ _ HrunC), fields_make_msg_cat.
    by rewrite length_app, !length_fmap. }
  pose proof HrunC as HrunAll.
  rewrite fields_make_msg_cat, unmarshal_tuple_app in HrunC.
  destruct (Msg.unmarshal_tuple bytes bit_offset
              (Field.field_copy <$> Msg.fields A))
    as [[[fsA trA] rA]|] eqn:HrunA; [|done].
  pose proof (unmarshal_tuple_length _ _ _ _ _ _ HrunA) as HlenA.
  rewrite length_fmap in HlenA.
  destruct (unmarshal_tuple_field_copy _ _ _ _ _ _ HrunA)
    as (fsA' & HrunA' & Hsame).
  destruct (on_unmarshal_decode_fields _ _ _ _ _ _ HrunA')
    as (mA & tr2 & r2 & -> & HmA & _). simpl.
  exists mA, (Msg.on_unmarshal_start :: tr2), r2. split; [done|].
  split.
  { rewrite HmA. by rewrite (unmarshal_tuple_length _ _ _ _ _ _ HrunA'). }
  assert (HfsC : ∀ i : nat, (i < Msg.n_fields A)%nat → fsC !! i = fsA !! i).
  { intros i Hi. unfold Msg.n_fields in Hi.
    destruct rA.
    - destruct (Msg.unmarshal_tuple bytes _ (Field.field_copy <$> D))
        as [[[fsD trD] rD]|]; [|done].
      injection HrunC as <- _ _. apply lookup_app_l. lia.
    - injection HrunC as <- _ _. apply lookup_app_l. lia. }
  intros i fC Hi Hpre. split.
  - intros HiA. rewrite HmA, Hsame.
    + by rewrite <- HfsC.
    + intros j g Hj Hg. apply (Hpre j g Hj). rewrite HfsC; [done|lia].
  - intros k d -> Hd.
    destruct (unmarshal_tuple_reached _ _ _ _ _ _ _ _ HrunAll Hi Hpre)
      as (f & Hf & Hdec).
    rewrite fields_make_msg_cat in Hf, Hdec. unfold Msg.n_fields in Hf, Hdec.
    rewrite lookup_app_r in Hf by (rewrite length_fmap; lia).
    rewrite length_fmap in Hf.
    replace (length (Msg.fields A) + k - length (Msg.fields A))%nat
      with k in Hf by lia.
    rewrite list_lookup_fmap, Hd in Hf. injection Hf as <-.
    rewrite unmarshal_field_copy in Hdec. rewrite <- Hdec. f_equal.
    rewrite take_app_ge by (rewrite length_fmap; lia).
    rewrite length_fmap.
    replace (length (Msg.fields A) + k - length (Msg.fields A))%nat
      with k by lia.
    rewrite end_offset_app, <- fmap_take, !end_offset_field_copy.
    rewrite (end_offset_total bit_offset) by done.
    rewrite end_offset_total by (unfold size_t; apply Z.mod_pos_bound; lia).
    rewrite size_t_add_l, HnA. done.
Qed.

(** [first_f] with [any()], extended by [second_f] with [between(0, 10)],
    over {0x80, 0x0A}: the concatenated message rejects [second_f] and
    returns false, and holds what the message of [first_f] and [second_f]
    on its own at bit 4 decode. *)
Lemma make_msg_cat_unmarshal_witness :
  ∃ mC tr mA trA rA f0 f1,
    Msg.unmarshal
      (Msg.make_msg_cat (Some 0%nat) (Msg.make_msg None [Field.any first_f])
         [Field.between second_f 0 10]) [0x80; 0x0A] 2 0
      = Some (mC, tr, false)
    ∧ Msg.fields mC = [f0; f1]
    ∧ Msg.unmarshal (Msg.make_msg None [Field.any first_f]) [0x80; 0x0A] 2 0
      = Some (mA, trA, rA)
    ∧ Msg.fields mA !! 0%nat = Some f0
    ∧ Field.unmarshal (Field.between second_f 0 10) [0x80; 0x0A] 4
      = Some (f1, false)
    ∧ values mC = [0; 168].
Proof.
  epose proof (make_msg_cat_unmarshal (Some 0%nat)
                 (Msg.make_msg None [Field.any first_f])
                 [Field.between second_f 0 10] [0x80; 0x0A] 2 0 _ _ false
                 _ _ _) as [_ Hrun].
  destruct (Hrun ltac:(vm_compute; discriminate)
                 ltac:(vm_compute; reflexivity))
    as (_ & _ & mA & trA & rA & HA & _ & Hfields).
  destruct (Hfields 0%nat _ eq_refl) as [H0 _]; [intros j g Hj; lia|].
  destruct (Hfields 1%nat _ eq_refl) as [_ H1].
  { intros [|j] g Hj; [by intros [= <-] | lia]. }
  specialize (H0 ltac:(vm_compute; lia)).
  specialize (H1 0%nat _ eq_refl eq_refl).
  eexists _, _, mA, trA, rA, _, _.
  split; [vm_compute; reflexivity|]. split; [reflexivity|].
  split; [exact HA|]. split; [exact H0|].
  split; [exact H1|]. reflexivity.
  Unshelve.
  - repeat constructor; vm_compute; discriminate.
  - vm_compute. reflexivity.
  - lia.
Defined.

(** The claim C8 as stated fails when a field is rejected: over
    {0x84, 0x0A} the concatenated message stops at [first_f] and leaves
    [second_f] at 0, while [second_f] unmarshalled on its own at bit
    [first_msg.n_bits = 4] holds 168. *)
Lemma make_msg_cat_unmarshal_counterexample :
  ∃ mC tr r d',
    Msg.unmarshal cat_msg [0x84; 0x0A] 2 0 = Some (mC, tr, r)
    ∧ values mC = [4; 0]
    ∧ Field.unmarshal (Field.any second_f) [0x84; 0x0A]
        (0 + Msg.n_bits first_msg) = Some (d', true)
    ∧ Field.m_value d' = 168
    ∧ values mC !! 1%nat ≠ Some (Field.m_value d').
Proof.
  eexists _, _, _, _. split; [vm_compute; reflexivity|].
  split; [reflexivity|]. split; [vm_compute; reflexivity|].
  split; [reflexivity|]. vm_compute. discriminate.
Qed.

(** ** Bit extraction *)

Section Bits.
Import Field.

Lemma testbit_b2z (c : bool) (t : Z) : Z.testbit (Z.b2z c) t = c && (t =? 0).
Proof. destruct c, t; done. Qed.

Lemma land1_shiftr (b p : Z) :
0 ≤ p → Z.land (Z.shiftr b p) 1 = Z.b2z (Z.testbit b p).
Proof.
intros Hp. rewrite Z.testbit_spec' by done.
rewrite Z.shiftr_div_pow2 by done.
change 1 with (Z.ones 1) at 1. rewrite Z.land_ones by lia. done.
Qed.

Lemma testbit_uint32 x j :
0 ≤ j → Z.testbit (uint32 x) j = (j <? 32) && Z.testbit x j.
Proof.
intros Hj. unfold uint32. destruct (Z.ltb_spec j 32).
- by rewrite Z.mod_pow2_bits_low.
- by rewrite Z.mod_pow2_bits_high.
Qed.

(** A non-negative integer with no bit at or above [k] is below [2^k]. *)
Lemma bits_bound raw k :
0 ≤ k → 0 ≤ raw → (∀ j, k ≤ j → Z.testbit raw j = false) → raw < 2 ^ k.
Proof.
intros Hk Hraw Hbits.
assert (E : raw mod 2 ^ k = raw).
{ apply Z.bits_inj'. intros j Hj. destruct (Z.lt_ge_cases j k).
  - by rewrite Z.mod_pow2_bits_low.
  - rewrite Z.mod_pow2_bits_high by lia. by rewrite Hbits. }
rewrite <- E. apply Z.mod_pos_bound. lia.
Qed.

Lemma read_in_bounds bytes i :
0 ≤ i < 8 * Z.of_nat (length bytes) →
∃ b, read bytes (i / 8) = Some b.
Proof.
intros Hi. unfold read.
destruct (lookup_lt_is_Some_2 bytes (Z.to_nat (i / 8))) as [b Hb]; [|eauto].
apply Nat2Z.inj_lt. rewrite Z2Nat.id by (apply Z.div_pos; lia).
apply Z.div_lt_upper_bound; lia.
Qed.

Lemma step_inv {A} (acc : option Z) (r : option A) (g : Z → A → Z) raw' :
(raw ← acc; b ← r; Some (g raw b)) = Some raw' →
∃ raw b, acc = Some raw ∧ r = Some b ∧ raw' = g raw b.
Proof.
destruct acc as [raw|]; simpl; [|done].
destruct r as [b|]; simpl; [|done]. intros [= <-]. eauto.
Qed.

(** [lsb_unmarshal]'s loop after [k] iterations, if no read was out of
  bounds: bit [j] of the result is the input bit [off + j]. *)
Lemma lsb_loop bytes off (k : nat) raw :
0 ≤ off → Z.of_nat k ≤ 32 →
foldl (lsb_step bytes off) (Some 0) (seqZ off (Z.of_nat k)) = Some raw →
0 ≤ raw
∧ ∀ j, 0 ≤ j →
    Z.testbit raw j
    = (j <? Z.of_nat k)
      && Z.testbit (default 0 (read bytes ((off + j) / 8)))
           ((off + j) mod 8).
Proof.
intros Hoff. revert raw. induction k as [|k IH]; intros raw' Hk.
- intros [= <-]. split; [done|]. intros j Hj.
  rewrite Z.bits_0. destruct (Z.ltb_spec j (Z.of_nat 0)); [lia|done].
- rewrite seqZ_S, foldl_snoc. unfold lsb_step at 1.
  intros (raw & b & Hrun & Hb & ->)%step_inv.
  destruct (IH raw) as (Hraw & Hbits); [lia|done|].
  assert (Hp : 0 ≤ (off + Z.of_nat k) mod 8) by (apply Z.mod_pos_bound; lia).
  rewrite land1_shiftr by done.
  replace (off + Z.of_nat k - off) with (Z.of_nat k) by lia.
  split.
  { apply Z.lor_nonneg. split; [done|]. unfold uint32.
    apply Z.mod_pos_bound. lia. }
  intros j Hj. rewrite Z.lor_spec, Hbits, testbit_uint32 by done.
  rewrite Z.shiftl_spec, testbit_b2z by done.
  destruct (Z.ltb_spec j (Z.of_nat k)), (Z.ltb_spec j (Z.of_nat (S k))),
    (Z.eqb_spec (j - Z.of_nat k) 0), (Z.ltb_spec j 32);
    try lia; simpl; rewrite ?andb_false_r, ?andb_true_r, ?orb_false_r;
    try done.
  replace j with (Z.of_nat k) by lia. by rewrite Hb.
Qed.

(** [msb_unmarshal]'s loop after [k] iterations, if no read was out of
  bounds: it computes what the shift-left-then-OR accumulation computes,
  and the bit read at step [i] ends at position [k - 1 - i]. *)
Lemma msb_loop bytes off (k : nat) raw :
0 ≤ off → Z.of_nat k ≤ 32 →
foldl (msb_step bytes) (Some 0) (seqZ off (Z.of_nat k)) = Some raw →
msb_accumulate bytes off (Z.of_nat k) = raw
∧ 0 ≤ raw
∧ ∀ j, 0 ≤ j →
    Z.testbit raw j
    = (j <? Z.of_nat k)
      && Z.testbit
           (default 0 (read bytes ((off + (Z.of_nat k - 1 - j)) / 8)))
           (7 - (off + (Z.of_nat k - 1 - j)) mod 8).
Proof.
intros Hoff. revert raw. induction k as [|k IH]; intros raw' Hk.
- intros [= <-]. repeat split; [done|]. intros j Hj.
  rewrite Z.bits_0. destruct (Z.ltb_spec j (Z.of_nat 0)); [lia|done].
- rewrite seqZ_S, foldl_snoc. unfold msb_step at 1.
  intros (raw & b & Hrun & Hb & ->)%step_inv.
  destruct (IH raw) as (Hacc & Hraw & Hbits); [lia|done|].
  assert (Hp : 0 ≤ 7 - (off + Z.of_nat k) mod 8)
    by (pose proof (Z.mod_pos_bound (off + Z.of_nat k) 8); lia).
  assert (Hlt : raw < 2 ^ Z.of_nat k).
  { apply bits_bound; [lia | done |]. intros j Hj. rewrite Hbits by lia.
    destruct (Z.ltb_spec j (Z.of_nat k)); [lia|done]. }
  assert (Hu : uint32 (Z.shiftl raw 1) = Z.shiftl raw 1).
  { unfold uint32. apply Z.mod_small. rewrite Z.shiftl_mul_pow2 by lia.
    assert (2 ^ Z.of_nat k ≤ 2 ^ 31) by (apply Z.pow_le_mono_r; lia). lia. }
  rewrite Hu. split.
  { unfold msb_accumulate in *. rewrite seqZ_S, foldl_snoc, Hacc.
    unfold bit_at. rewrite Z.add_0_l, Hb. done. }
  rewrite land1_shiftr by done.
  split.
  { apply Z.lor_nonneg. split; [by apply Z.shiftl_nonneg|].
    by destruct (Z.testbit b _). }
  intros j Hj. rewrite Z.lor_spec, Z.shiftl_spec, testbit_b2z by done.
  destruct (Z.eqb_spec j 0) as [->|Hj0].
  + rewrite Z.testbit_neg_r by lia. simpl.
    destruct (Z.ltb_spec 0 (Z.of_nat (S k))); [|lia]. simpl.
    replace (Z.of_nat (S k) - 1 - 0) with (Z.of_nat k) by lia.
    by rewrite Hb, andb_true_r.
  + rewrite andb_false_r, orb_false_r, Hbits by lia.
    replace (Z.of_nat (S k) - 1 - j) with (Z.of_nat k - 1 - (j - 1)) by lia.
    destruct (Z.ltb_spec (j - 1) (Z.of_nat k)),
      (Z.ltb_spec j (Z.of_nat (S k))); try lia; done.
Qed.

(** Inside the buffer both loops run to their end. *)
Lemma loops_total bytes off (k : nat) :
0 ≤ off → off + Z.of_nat k ≤ 8 * Z.of_nat (length bytes) →
is_Some (foldl (lsb_step bytes off) (Some 0) (seqZ off (Z.of_nat k)))
∧ is_Some (foldl (msb_step bytes) (Some 0) (seqZ off (Z.of_nat k))).
Proof.
intros Hoff. induction k as [|k IH]; intros Hlen; [by split; eexists|].
destruct IH as [[r1 H1] [r2 H2]]; [lia|].
destruct (read_in_bounds bytes (off + Z.of_nat k)) as [b Hb]; [lia|].
rewrite seqZ_S, !foldl_snoc, H1, H2. unfold lsb_step, msb_step.
rewrite Hb. simpl. by split; eexists.
Qed.

(** The number of iterations of the decode loops: [n_bits], or none when
  [bit_offset + n_bits] wraps around. *)
Lemma decode_range off n :
0 ≤ off < 2 ^ 64 → 0 ≤ n ≤ 32 →
seqZ off (size_t (off + n) - off)
= if decide (off + n < 2 ^ 64) then seqZ off (Z.of_nat (Z.to_nat n)) else [].
Proof.
intros Hoff Hn. case_decide as Hw.
- rewrite size_t_small by lia. f_equal. lia.
- apply seqZ_nil. unfold size_t.
  replace (off + n) with (off + n - 2 ^ 64 + 1 * 2 ^ 64) by lia.
  rewrite Z.mod_add by lia. rewrite Z.mod_small by lia. lia.
Qed.

Lemma wf_decl_bound d : wf_decl d → 0 ≤ n_bits d ≤ 32.
Proof. unfold wf_decl, n_bits. destruct (T d); simpl; lia. Qed.

(** Whatever [unmarshal] reads fits in [n_bits] bits. *)
Lemma decode_raw_bound d bytes off raw :
wf_decl d → 0 ≤ off < 2 ^ 64 →
decode_raw d bytes off = Some raw → 0 ≤ raw < 2 ^ n_bits d.
Proof.
intros Hwf%wf_decl_bound Hoff.
unfold decode_raw, lsb_unmarshal, msb_unmarshal, for_range.
rewrite decode_range by done.
assert (Hz : 0 ≤ 0 < 2 ^ n_bits d) by (split; [done|]; by apply Z.pow_pos_nonneg; lia).
destruct (EndianessT d); case_decide; try (by intros [= <-]).
- intros [Hraw Hbits]%lsb_loop; [|lia..]. split; [done|].
  apply bits_bound; [lia|done|]. intros j Hj. rewrite Hbits by lia.
  destruct (Z.ltb_spec j (Z.of_nat (Z.to_nat (n_bits d)))); [lia|done].
- intros (_ & Hraw & Hbits)%msb_loop; [|lia..]. split; [done|].
  apply bits_bound; [lia|done|]. intros j Hj. rewrite Hbits by lia.
  destruct (Z.ltb_spec j (Z.of_nat (Z.to_nat (n_bits d)))); [lia|done].
Qed.

(** [lsb_unmarshal] on a span inside the buffer. *)
Lemma lsb_unmarshal_in_bounds d bytes off :
  wf_decl d → 0 ≤ off → off + n_bits d < 2 ^ 64 →
  off + n_bits d ≤ 8 * Z.of_nat (length bytes) →
  ∃ lsb,
    lsb_unmarshal d bytes off = Some lsb
    ∧ 0 ≤ lsb < 2 ^ n_bits d
    ∧ ∀ i, 0 ≤ i < n_bits d →
        ∃ b, read bytes ((off + i) / 8) = Some b
             ∧ Z.testbit lsb i = Z.testbit b ((off + i) mod 8).
Proof.
  intros Hwf Hoff Hwrap Hlen.
  pose proof (wf_decl_bound d Hwf) as Hn.
  remember (Z.to_nat (n_bits d)) as k eqn:Ek.
  destruct (loops_total bytes off k) as [[lsb Hl] _]; [lia..|].
  assert (Hlsb : lsb_unmarshal d bytes off = Some lsb).
  { unfold lsb_unmarshal, for_range. rewrite decode_range by lia.
    rewrite decide_True by lia. by subst k. }
  destruct (lsb_loop bytes off k lsb Hoff ltac:(lia) Hl) as [Hl0 Hlbits].
  exists lsb. split; [done|]. split.
  - split; [done|]. apply bits_bound; [lia|done|].
    intros j Hj. rewrite Hlbits by lia.
    destruct (Z.ltb_spec j (Z.of_nat k)); [lia|done].
  - intros i Hi.
    destruct (read_in_bounds bytes (off + i)) as [b Hb]; [lia|].
    exists b. split; [done|]. rewrite Hlbits by lia. rewrite Hb. simpl.
    destruct (Z.ltb_spec i (Z.of_nat k)); [done|lia].
Qed.

End Bits.

(** C6.  For a field whose span [bit_offset .. bit_offset + n_bits - 1]
    lies inside the buffer, unmarshal reads exactly [n_bits] bits.  In
    LSB-first mode bit [i] of the raw value is the input bit at byte
    [(bit_offset+i)/8], position [(bit_offset+i)%8].  In MSB-first mode the
    raw value is the shift-left-then-OR accumulation of the input bits at
    byte [(bit_offset+i)/8], position [7 - (bit_offset+i)%8], for [i] from 0
    to [n_bits - 1], so that the bit read at step [i] is bit
    [n_bits - 1 - i] of the raw value.  [unmarshal] takes the first for a
    [little] field and the second for a [big] one, stores it converted to
    the value type, and validates. *)
Theorem unmarshal_extracts_bits
    (d : Field.field_decl) (bytes : list Z) (bit_offset : Z) :
  Field.wf_decl d →
  0 ≤ bit_offset →
  bit_offset + Field.n_bits d < 2 ^ 64 →
  bit_offset + Field.n_bits d ≤ 8 * Z.of_nat (length bytes) →
  ∃ lsb msb,
    Field.lsb_unmarshal d bytes bit_offset = Some lsb
    ∧ Field.msb_unmarshal d bytes bit_offset = Some msb
    ∧ Field.decode_raw d bytes bit_offset
      = Some (match Field.EndianessT d with
              | Field.little => lsb
              | Field.big => msb
              end)
    ∧ (∀ f, Field.decl f = d →
         let raw := match Field.EndianessT d with
                    | Field.little => lsb
                    | Field.big => msb
                    end in
         let f' := Field.validate
                     (Field.set_value f (Field.static_cast (Field.T d) raw)) in
         Field.unmarshal f bytes bit_offset = Some (f', Field.m_valid f'))
    ∧ 0 ≤ lsb < 2 ^ Field.n_bits d
    ∧ 0 ≤ msb < 2 ^ Field.n_bits d
    ∧ msb = msb_accumulate bytes bit_offset (Field.n_bits d)
    ∧ ∀ i, 0 ≤ i < Field.n_bits d →
        ∃ b, read bytes ((bit_offset + i) / 8) = Some b
             ∧ Z.testbit lsb i = Z.testbit b ((bit_offset + i) mod 8)
             ∧ Z.testbit msb (Field.n_bits d - 1 - i)
               = Z.testbit b (7 - (bit_offset + i) mod 8).
Proof.
  intros Hwf Hoff Hwrap Hlen.
  pose proof (wf_decl_bound d Hwf) as Hn.
  remember (Z.to_nat (Field.n_bits d)) as k eqn:Ek.
  assert (Hk : Z.of_nat k = Field.n_bits d) by lia.
  destruct (loops_total bytes bit_offset k) as [[lsb Hl] [msb Hm]]; [lia..|].
  assert (Hrange : seqZ bit_offset
                     (size_t (bit_offset + Field.n_bits d) - bit_offset)
                   = seqZ bit_offset (Z.of_nat k)).
  { rewrite decode_range by lia. rewrite decide_True by lia. by subst k. }
  assert (Hlsb : Field.lsb_unmarshal d bytes bit_offset = Some lsb).
  { unfold Field.lsb_unmarshal, for_range. by rewrite Hrange. }
  assert (Hmsb : Field.msb_unmarshal d bytes bit_offset = Some msb).
  { unfold Field.msb_unmarshal, for_range. by rewrite Hrange. }
  destruct (lsb_loop bytes bit_offset k lsb Hoff ltac:(lia) Hl)
    as [Hl0 Hlbits].
  destruct (msb_loop bytes bit_offset k msb Hoff ltac:(lia) Hm)
    as (Hacc & Hm0 & Hmbits).
  rewrite Hk in Hacc.
  assert (Hhigh : ∀ raw (g : Z → bool),
            (∀ j, 0 ≤ j → Z.testbit raw j = (j <? Z.of_nat k) && g j) →
            ∀ j, Field.n_bits d ≤ j → Z.testbit raw j = false).
  { intros raw g Hbits j Hj. rewrite Hbits by lia.
    destruct (Z.ltb_spec j (Z.of_nat k)); [lia|done]. }
  assert (Hdec : Field.decode_raw d bytes bit_offset
                 = Some (match Field.EndianessT d with
                         | Field.little => lsb
                         | Field.big => msb
                         end)).
  { unfold Field.decode_raw. by destruct (Field.EndianessT d). }
  exists lsb, msb. split; [done|]. split; [done|]. split; [done|].
  split. { intros f <-. unfold Field.unmarshal. by rewrite Hdec. }
  split. { split; [done|]. apply bits_bound; [lia|done|]. eauto. }
  split. { split; [done|]. apply bits_bound; [lia|done|]. eauto. }
  split; [done|].
  intros i Hi.
  destruct (read_in_bounds bytes (bit_offset + i)) as [b Hb]; [lia|].
  exists b. split; [done|]. split.
  - rewrite Hlbits by lia. rewrite Hb. simpl.
    destruct (Z.ltb_spec i (Z.of_nat k)); [done|lia].
  - rewrite Hmbits by lia.
    replace (Z.of_nat k - 1 - (Field.n_bits d - 1 - i)) with i by lia.
    rewrite Hb. simpl.
    destruct (Z.ltb_spec (Field.n_bits d - 1 - i) (Z.of_nat k)); [done|lia].
Qed.

Lemma unmarshal_extracts_bits_witness :
  Field.lsb_unmarshal second_f [0x84; 0x0A] 4 = Some 168
  ∧ Field.msb_unmarshal second_f [0x84; 0x0A] 4 = Some 1034
  ∧ msb_accumulate [0x84; 0x0A] 4 12 = 1034
  ∧ Z.testbit 168 3 = Z.testbit 0x84 7.
Proof.
  destruct (unmarshal_extracts_bits second_f [0x84; 0x0A] 4)
    as (lsb & msb & Hl & Hm & _ & _ & _ & _ & Hacc & Hbits);
    [vm_compute; split; discriminate | lia | vm_compute; reflexivity
    | vm_compute; discriminate |].
  destruct (Hbits 3 ltac:(vm_compute; split; [discriminate|reflexivity]))
    as (b & Hb & Hbit & _).
  revert Hl Hm Hb. vm_compute. intros [= <-] [= <-] [= <-].
  repeat split.
Defined.

(** ** The default range check *)

Section DefaultCondition.
Import Field.

Lemma pow2_le a b : 0 ≤ a ≤ b → 2 ^ a ≤ 2 ^ b.
Proof. intros. apply Z.pow_le_mono_r; lia. Qed.

Lemma static_cast_in_range T x : in_range T (static_cast T x).
Proof.
  unfold in_range, static_cast, numeric_min, numeric_max.
  pose proof (Z.mod_pos_bound x (2 ^ (sizeof T * 8))) as Hm.
  destruct T; simpl in *;
    repeat match goal with
           | |- context [Z.leb ?a ?b] => destruct (Z.leb_spec a b)
           end; lia.
Qed.

Lemma static_cast_small T x :
  0 ≤ x ≤ numeric_max T → static_cast T x = x.
Proof.
  unfold static_cast, numeric_max. intros Hx.
  assert (x mod 2 ^ (sizeof T * 8) = x) as ->.
  { apply Z.mod_small. destruct T; simpl in *; lia. }
  destruct T; simpl in *;
    repeat match goal with
           | |- context [Z.leb ?a ?b] => destruct (Z.leb_spec a b)
           end; lia.
Qed.

(** Outside the wrapping declarations the default upper bound is the
    smaller of the type's maximum and [2^n_bits - 1]. *)
Lemma default_max_spec d :
  wf_decl d → ¬ signed_narrow_full_width d →
  default_max d = Z.min (numeric_max (T d)) (2 ^ NBitsT d - 1).
Proof.
  unfold wf_decl, signed_narrow_full_width, default_max.
  intros Hwf Hns.
  destruct (Z.eqb_spec (NBitsT d) 32) as [E|E].
  - rewrite E. rewrite static_cast_small; unfold numeric_max;
      destruct (T d); simpl in *; lia.
  - rewrite Z.shiftl_1_l.
    assert (Hle : 2 ^ NBitsT d - 1 ≤ numeric_max (T d)).
    { destruct (T d) eqn:ET; simpl in *; unfold numeric_max; simpl.
      all: try (pose proof (pow2_le (NBitsT d) 8 ltac:(lia)); simpl in *; lia).
      all: try (pose proof (pow2_le (NBitsT d) 7 ltac:(lia)); simpl in *; lia).
      all: try (pose proof (pow2_le (NBitsT d) 16 ltac:(lia)); simpl in *; lia).
      all: try (pose proof (pow2_le (NBitsT d) 15 ltac:(lia)); simpl in *; lia).
      all: try (pose proof (pow2_le (NBitsT d) 31 ltac:(lia)); simpl in *; lia). }
    rewrite static_cast_small; [lia|].
    pose proof (Z.pow_pos_nonneg 2 (NBitsT d)). lia.
Qed.

(** [validate] on a field that carries the default condition. *)
Lemma validate_default d f :
  m_condition f = Some (default_condition d) →
  m_valid (validate f)
  = (numeric_min (T d) <=? m_value f) && (m_value f <=? default_max d).
Proof. intros E. unfold validate. rewrite E. done. Qed.

(** The default range check, where the upper bound does not wrap: a
    value of the value type is accepted iff it lies in
    [[type-min, min(type-max, 2^n_bits - 1)]]. *)
Lemma default_range_check_spec d f v :
  wf_decl d → ¬ signed_narrow_full_width d →
  m_condition f = Some (default_condition d) →
  m_valid (validate (set_value f v)) = true
  ↔ numeric_min (T d) ≤ v ≤ Z.min (numeric_max (T d)) (2 ^ NBitsT d - 1).
Proof.
  intros Hwf Hns Hc. rewrite (validate_default d) by done. simpl.
  rewrite default_max_spec by done.
  rewrite andb_true_iff, !Z.leb_le. done.
Qed.

(** Every decoded value lies in
    [[type-min, min(type-max, 2^n_bits - 1)]]. *)
Lemma default_accepts_decoded d raw :
  wf_decl d → 0 ≤ raw < 2 ^ n_bits d →
  numeric_min (T d) ≤ static_cast (T d) raw
    ≤ Z.min (numeric_max (T d)) (2 ^ NBitsT d - 1).
Proof.
  intros Hwf Hraw.
  pose proof (static_cast_in_range (T d) raw) as [Hlo Hhi].
  split; [done|]. apply Z.min_glb; [done|].
  destruct (Z.le_gt_cases raw (numeric_max (T d))) as [Hle|Hgt].
  { rewrite static_cast_small by lia. unfold n_bits in Hraw. lia. }
  unfold wf_decl, n_bits, numeric_max in *.
  destruct (T d); simpl in *.
  - pose proof (pow2_le (NBitsT d) 8 ltac:(lia)); simpl in *; lia.
  - pose proof (pow2_le (NBitsT d) 8 ltac:(lia)); simpl in *; lia.
  - pose proof (pow2_le (NBitsT d) 16 ltac:(lia)); simpl in *; lia.
  - pose proof (pow2_le (NBitsT d) 16 ltac:(lia)); simpl in *; lia.
  - pose proof (pow2_le (NBitsT d) 32 ltac:(lia)); simpl in *; lia.
  - pose proof (pow2_le (NBitsT d) 32 ltac:(lia)); simpl in *; lia.
Qed.
End DefaultCondition.

(** C9, as the code has it, for fields over the fixed-width integer value
    types.  [any()] returns a default-constructed field, whose condition is
    the default range check.  Over a declaration other than a signed 8- or
    16-bit type at full width: a value of the value type that is assigned,
    initialised or validated is accepted iff it is at most [2^n_bits - 1],
    and every value [unmarshal] decodes is accepted. *)
Theorem any_is_default_range_check (d : Field.field_decl) :
  Field.wf_decl d → ¬ signed_narrow_full_width d →
  Field.m_condition (Field.any d) = Some (Field.default_condition d)
  ∧ (∀ v, in_range (Field.T d) v →
       (Field.m_valid (Field.assign (Field.any d) v) = true
        ↔ v ≤ 2 ^ Field.n_bits d - 1)
       ∧ (Field.m_valid (Field.init (Field.any d) v) = true
          ↔ v ≤ 2 ^ Field.n_bits d - 1)
       ∧ (Field.m_valid (Field.validate (Field.set_value (Field.any d) v))
          = true ↔ v ≤ 2 ^ Field.n_bits d - 1))
  ∧ (∀ bytes bit_offset f' ok,
       0 ≤ bit_offset < 2 ^ 64 →
       Field.unmarshal (Field.any d) bytes bit_offset = Some (f', ok) →
       ok = true ∧ Field.m_valid f' = true).
Proof.
  intros Hwf Hns. split; [done|]. split.
  - intros v [Hlo Hhi].
    assert (H : Field.m_valid (Field.validate (Field.set_value (Field.any d) v))
                = true ↔ v ≤ 2 ^ Field.n_bits d - 1).
    { rewrite (default_range_check_spec d) by done.
      unfold Field.n_bits. lia. }
    done.
  - intros bytes off f' ok Hoff. unfold Field.unmarshal. simpl.
    destruct (Field.decode_raw d bytes off) as [raw|] eqn:Hraw; simpl; [|done].
    intros [= <- <-].
    apply decode_raw_bound in Hraw; [|done..].
    assert (H : Field.m_valid
                  (Field.validate
                     (Field.set_value (Field.field_default d)
                        (Field.static_cast (Field.T d) raw))) = true).
    { apply (default_range_check_spec d); [done..|].
      by apply default_accepts_decoded. }
    done.
Qed.

Lemma any_is_default_range_check_witness :
  Field.m_valid (Field.assign (Field.any first_f) 15) = true
  ∧ ∃ f', Field.unmarshal (Field.any second_f) [0x80; 0x0A] 4
          = Some (f', true).
Proof.
  split.
  - apply (proj1 (proj2 (any_is_default_range_check first_f
                           ltac:(vm_compute; split; discriminate)
                           ltac:(intros (H & _ & _); discriminate H)))
             15).
    + vm_compute. split; discriminate.
    + vm_compute. discriminate.
  - eexists.
    destruct (proj2 (proj2 (any_is_default_range_check second_f
                              ltac:(vm_compute; split; discriminate)
                              ltac:(intros (H & _ & _); discriminate H)))
                [0x80; 0x0A] 4 _ true ltac:(lia) eq_refl) as [_ H].
    reflexivity.
Defined.

(** The claim C9 as stated fails: a 4-bit field over [uint16_t] built by
    [any()] rejects the assigned value 16. *)
Lemma any_is_default_range_check_counterexample :
  in_range Field.uint16_t 16
  ∧ Field.m_valid (Field.assign (Field.any first_f) 16) = false.
Proof. split; [vm_compute; split; discriminate | reflexivity]. Qed.

(** C2 at the failing input.  For [field_t<std::int8_t, 8>] with no
    explicit condition the upper bound [static_cast<int8_t>((1 << 8) - 1)]
    is [-1]: the value 5, which lies between the type's minimum and
    maximum, is rejected, whether assigned or decoded from the byte 0x05. *)
Theorem default_range_check_int8_full_width :
  Field.NBitsT int8_full = Field.sizeof (Field.T int8_full) * 8
  ∧ Field.numeric_min Field.int8_t ≤ 5 ≤ Field.numeric_max Field.int8_t
  ∧ Field.default_max int8_full = -1
  ∧ Field.m_valid (Field.assign (Field.field_default int8_full) 5) = false
  ∧ ∃ f', Field.unmarshal (Field.field_default int8_full) [0x05] 0
          = Some (f', false)
          ∧ Field.m_value f' = 5.
Proof.
  split; [reflexivity|]. split; [vm_compute; split; discriminate|].
  split; [reflexivity|]. split; [reflexivity|].
  eexists. split; [vm_compute; reflexivity | reflexivity].
Qed.

(** ** Marshalling *)

Section Marshal.
Import Field.

Lemma testbit_uint8 x p :
  0 ≤ p → Z.testbit (uint8 x) p = (p <? 8) && Z.testbit x p.
Proof.
  intros Hp. unfold uint8. destruct (Z.ltb_spec p 8).
  - by rewrite Z.mod_pow2_bits_low.
  - by rewrite Z.mod_pow2_bits_high.
Qed.

(** Either loop of [marshal] after [k] iterations, [e i] being the bit
    of [raw] that iteration [i] writes: bit [p] of byte [j] holds bit
    [e (8j + p)] of [raw] if [8j + p < k], and is zero otherwise. *)
Lemma marshal_loop (raw : Z) (e : Z → Z) (len : nat) (k : nat) :
  (∀ i, 0 ≤ i < Z.of_nat k → 0 ≤ e i) →
  length (marshal_fold raw e len (Z.of_nat k)) = len
  ∧ ∀ (j : nat) b, marshal_fold raw e len (Z.of_nat k) !! j = Some b →
      ∀ p, 0 ≤ p →
        Z.testbit b p
        = (p <? 8) && (8 * Z.of_nat j + p <? Z.of_nat k)
          && Z.testbit raw (e (8 * Z.of_nat j + p)).
Proof.
  unfold marshal_fold. induction k as [|k IH]; intros He.
  - rewrite seqZ_nil by lia. simpl.
    split; [by rewrite length_replicate|].
    intros j b [-> _]%lookup_replicate p Hp. rewrite Z.bits_0.
    destruct (Z.ltb_spec (8 * Z.of_nat j + p) (Z.of_nat 0)); [lia|].
    by rewrite andb_false_r.
  - rewrite seqZ_S, foldl_snoc, Z.add_0_l.
    destruct IH as [Hlen Hbits]; [intros; apply He; lia|].
    set (prev := foldl _ _ _) in *.
    unfold or_at. split; [by rewrite length_alter|].
    intros j b Hj p Hp.
    assert (Hq : 0 ≤ Z.of_nat k / 8) by (apply Z.div_pos; lia).
    assert (Hm : 0 ≤ Z.of_nat k mod 8 < 8) by (apply Z.mod_pos_bound; lia).
    pose proof (Z.div_mod (Z.of_nat k) 8 ltac:(lia)) as Hdm.
    rewrite list_lookup_alter in Hj. case_decide as Hidx.
    + destruct (prev !! Z.to_nat (Z.of_nat k / 8)) as [b0|] eqn:Hb0;
        simpl in Hj; [|done].
      injection Hj as <-.
      rewrite land1_shiftr by (apply He; lia).
      rewrite testbit_uint8, Z.lor_spec, Z.shiftl_spec, testbit_b2z by done.
      rewrite (Hbits _ _ Hb0) by done.
      assert (Hjk : Z.of_nat j = Z.of_nat k / 8) by lia.
      destruct (Z.ltb_spec p 8), (Z.eqb_spec (p - Z.of_nat k mod 8) 0),
        (Z.ltb_spec (8 * Z.of_nat (Z.to_nat (Z.of_nat k / 8)) + p)
           (Z.of_nat k)),
        (Z.ltb_spec (8 * Z.of_nat j + p) (Z.of_nat (S k)));
        simpl; rewrite ?andb_false_r, ?andb_true_r, ?orb_false_r;
        try done; try lia.
      * replace (8 * Z.of_nat j + p) with (Z.of_nat k) by lia. done.
      * rewrite Hidx. done.
    + rewrite (Hbits _ _ Hj) by done.
      assert (Hjk : Z.of_nat j ≠ Z.of_nat k / 8) by lia.
      destruct (Z.ltb_spec p 8); simpl; [|done].
      destruct (Z.ltb_spec (8 * Z.of_nat j + p) (Z.of_nat k)),
        (Z.ltb_spec (8 * Z.of_nat j + p) (Z.of_nat (S k)));
        try done; try lia.
Qed.

Lemma marshal_bits (raw : Z) (e : Z → Z) (len : nat) (k : Z) :
  0 ≤ k → (∀ i, 0 ≤ i < k → 0 ≤ e i) →
  length (marshal_fold raw e len k) = len
  ∧ ∀ (j : nat) b, marshal_fold raw e len k !! j = Some b →
      ∀ p, 0 ≤ p →
        Z.testbit b p
        = (p <? 8) && (8 * Z.of_nat j + p <? k)
          && Z.testbit raw (e (8 * Z.of_nat j + p)).
Proof.
  intros Hk He. rewrite <- (Z2Nat.id k) by done.
  apply marshal_loop. intros i Hi. apply He. lia.
Qed.

Lemma n_bytes_covers d : wf_decl d → 0 ≤ n_bytes d ∧ n_bits d ≤ 8 * n_bytes d.
Proof.
  unfold wf_decl, n_bytes, n_bits. intros Hwf.
  pose proof (Z.div_mod (NBitsT d + 7) 8 ltac:(lia)).
  pose proof (Z.mod_pos_bound (NBitsT d + 7) 8 ltac:(lia)).
  split; [apply Z.div_pos; lia | lia].
Qed.

(** [marshal] as one of the two folds. *)
Lemma marshal_unfold f :
  marshal f
  = marshal_fold (to_raw (T (decl f)) (m_value f))
      (match EndianessT (decl f) with
       | little => λ i, i
       | big => λ i, n_bits (decl f) - i - 1
       end)
      (Z.to_nat (n_bytes (decl f))) (n_bits (decl f)).
Proof.
  unfold marshal, marshal_fold, for_range. rewrite Z.sub_0_r.
  by destruct (EndianessT (decl f)).
Qed.

(** The buffer [marshal] returns has [n_bytes] bytes, and in either bit
    order every bit at or past position [n_bits] of the buffer is zero:
    the unused high-order bits of the final byte are zero. *)
Lemma marshal_shape f :
  wf_decl (decl f) →
  length (marshal f) = Z.to_nat (n_bytes (decl f))
  ∧ ∀ (j : nat) b, marshal f !! j = Some b →
      0 ≤ b < 256
      ∧ ∀ p, 0 ≤ p → n_bits (decl f) ≤ 8 * Z.of_nat j + p →
          Z.testbit b p = false.
Proof.
  intros Hwf. pose proof (wf_decl_bound _ Hwf) as Hn.
  rewrite marshal_unfold.
  edestruct (marshal_bits (to_raw (T (decl f)) (m_value f))) as [Hlen Hbits];
    [| |split; [exact Hlen|]]; [lia| |].
  { intros i Hi. destruct (EndianessT (decl f)); lia. }
  intros j b Hj. pose proof (Hbits j b Hj) as Hb.
  assert (Hb0 : 0 ≤ b).
  { apply Z.bits_iff_nonneg_ex. exists 8. intros p Hp. rewrite Hb by lia.
    destruct (Z.ltb_spec p 8); [lia|done]. }
  split.
  - split; [done|]. apply (bits_bound b 8); [lia|done|].
    intros p Hp. rewrite Hb by lia. destruct (Z.ltb_spec p 8); [lia|done].
  - intros p Hp Hge. rewrite Hb by done.
    destruct (Z.ltb_spec (8 * Z.of_nat j + p) (n_bits (decl f))); [lia|].
    by rewrite andb_false_r.
Qed.

Lemma static_cast_mod T x n :
  0 ≤ n ≤ sizeof T * 8 → static_cast T x mod 2 ^ n = x mod 2 ^ n.
Proof.
  intros Hn.
  assert (Hw : 2 ^ (sizeof T * 8) = 2 ^ (sizeof T * 8 - n) * 2 ^ n).
  { rewrite <- Z.pow_add_r by lia. f_equal. lia. }
  assert (Hc : ∃ c, static_cast T x = x + c * 2 ^ (sizeof T * 8)).
  { unfold static_cast.
    pose proof (Z.div_mod x (2 ^ (sizeof T * 8))
                  ltac:(apply Z.pow_nonzero; destruct T; simpl; lia)) as Hdm.
    destruct (_ && _).
    - exists (- (x / 2 ^ (sizeof T * 8)) - 1). lia.
    - exists (- (x / 2 ^ (sizeof T * 8))). lia. }
  destruct Hc as [c ->]. rewrite Hw, Z.mul_assoc.
  apply Z.mod_add. apply Z.pow_nonzero; lia.
Qed.

Lemma to_raw_mod T v n :
  0 ≤ n ≤ sizeof T * 8 → to_raw T v mod 2 ^ n = v mod 2 ^ n.
Proof.
  intros Hn. unfold to_raw.
  assert (Hw : 2 ^ (sizeof T * 8) = 2 ^ (sizeof T * 8 - n) * 2 ^ n).
  { rewrite <- Z.pow_add_r by lia. f_equal. lia. }
  pose proof (Z.div_mod v (2 ^ (sizeof T * 8))
                ltac:(apply Z.pow_nonzero; destruct T; simpl; lia)) as Hdm.
  replace (v mod 2 ^ (sizeof T * 8))
    with (v + - (v / 2 ^ (sizeof T * 8)) * 2 ^ (sizeof T * 8)) by lia.
  rewrite Hw at 2. rewrite Z.mul_assoc.
  apply Z.mod_add. apply Z.pow_nonzero; lia.
Qed.

(** LSB-first: decoding what [marshal] wrote, from bit 0, reads the low
    [n_bits] bits of the value back. *)
Lemma decode_marshal_lsb f :
  wf_decl (decl f) → EndianessT (decl f) = little →
  decode_raw (decl f) (marshal f) 0
  = Some (to_raw (T (decl f)) (m_value f) mod 2 ^ n_bits (decl f)).
Proof.
  intros Hwf Hle. pose proof (wf_decl_bound _ Hwf) as Hn.
  destruct (n_bytes_covers _ Hwf) as [Hnb Hcov].
  destruct (marshal_shape f Hwf) as [Hlen _].
  destruct (lsb_unmarshal_in_bounds (decl f) (marshal f) 0)
    as (lsb & Hdec & [Hl0 Hl1] & Hbits); [done | done | lia | lia |].
  unfold decode_raw. rewrite Hle, Hdec. f_equal.
  apply Z.bits_inj'. intros j Hj.
  destruct (Z.lt_ge_cases j (n_bits (decl f))) as [Hlt|Hge].
  - rewrite Z.mod_pow2_bits_low by done.
    destruct (Hbits j ltac:(lia)) as (b & Hb & ->).
    rewrite Z.add_0_l in *. unfold read in Hb.
    revert Hb. rewrite marshal_unfold, Hle. intros Hb.
    edestruct (marshal_bits (to_raw (T (decl f)) (m_value f)) (λ i, i))
      as [_ Hm]; [| |rewrite (Hm _ _ Hb)].
    + lia.
    + intros; lia.
    + pose proof (Z.div_mod j 8 ltac:(lia)).
      pose proof (Z.mod_pos_bound j 8 ltac:(lia)).
      rewrite Z2Nat.id by (apply Z.div_pos; lia).
      replace (8 * (j / 8) + j mod 8) with j by lia.
      destruct (Z.ltb_spec (j mod 8) 8); [|lia].
      destruct (Z.ltb_spec j (n_bits (decl f))); [done|lia].
    + apply Z.mod_pos_bound. lia.
  - rewrite Z.mod_pow2_bits_high by lia.
    rewrite <- (Z.mod_small lsb (2 ^ n_bits (decl f))) by lia.
    apply Z.mod_pow2_bits_high. lia.
Qed.

(** LSB-first round trip: [marshal], then [unmarshal] at bit 0 into a
    field of the same declaration, stores a value that agrees with the
    original on the [n_bits] bits of its span, and hands it to the
    condition of the receiving field. *)
Lemma marshal_unmarshal_lsb f fresh :
  wf_decl (decl f) → EndianessT (decl f) = little →
  decl fresh = decl f →
  ∃ v',
    Field.unmarshal fresh (marshal f) 0
    = Some (validate (set_value fresh v'),
            m_valid (validate (set_value fresh v')))
    ∧ v' mod 2 ^ n_bits (decl f) = m_value f mod 2 ^ n_bits (decl f).
Proof.
  intros Hwf Hle Hd. unfold Field.unmarshal. rewrite Hd.
  rewrite decode_marshal_lsb by done. simpl.
  eexists. split; [done|].
  rewrite static_cast_mod by apply Hwf.
  rewrite Z.mod_mod by (apply Z.pow_nonzero; [lia | apply Hwf]).
  apply to_raw_mod. apply Hwf.
Qed.
End Marshal.

(** C1 at the failing input.  An MSB-first 8-bit field holding 1, which
    satisfies its condition, marshals to the byte 0x80 ([marshal] writes
    bit [n_bits - 1 - i] of the value at position [i % 8]); [unmarshal]
    into a fresh field of the same declaration reads position
    [7 - i % 8] and stores 128, which is accepted and is not the original
    value. *)
Theorem marshal_unmarshal_msb_first :
  let f := Field.assign (Field.field_default msb_byte) 1 in
  Field.m_valid f = true
  ∧ Field.m_value f = 1
  ∧ Field.marshal f = [0x80]
  ∧ ∃ f',
      Field.unmarshal (Field.field_default msb_byte) (Field.marshal f) 0
        = Some (f', true)
      ∧ Field.m_value f' = 128
      ∧ Field.m_value f' mod 2 ^ Field.n_bits msb_byte
        ≠ Field.m_value f mod 2 ^ Field.n_bits msb_byte.
Proof.
  repeat split. eexists. split; [vm_compute; reflexivity|].
  split; [reflexivity|]. vm_compute. discriminate.
Qed.

(** * Further properties *)

(** ** Conversion between raw bits and values *)

Section Conversion.
Import Field.

(** What [static_cast] gives on a raw integer of the type's width. *)
Lemma static_cast_raw T raw :
  0 ≤ raw < 2 ^ (sizeof T * 8) →
  static_cast T raw
  = if is_signed T && (2 ^ (sizeof T * 8 - 1) <=? raw)
    then raw - 2 ^ (sizeof T * 8) else raw.
Proof. intros Hraw. unfold static_cast. by rewrite Z.mod_small. Qed.

Lemma pow2_width_half T : 2 ^ (sizeof T * 8) = 2 * 2 ^ (sizeof T * 8 - 1).
Proof. by destruct T. Qed.

End Conversion.

(** X1.  Whatever the buffer and the offset, the raw integer that
    [lsb_unmarshal] or [msb_unmarshal] returns for a field fits in the
    field's [n_bits] bits. *)
Theorem decoded_raw_fits_width
    (d : Field.field_decl) (bytes : list Z) (bit_offset raw : Z) :
  Field.wf_decl d → 0 ≤ bit_offset < 2 ^ 64 →
  Field.decode_raw d bytes bit_offset = Some raw →
  0 ≤ raw < 2 ^ Field.n_bits d.
Proof. apply decode_raw_bound. Qed.

Lemma decoded_raw_fits_width_witness : 0 ≤ 1034 < 2 ^ 12.
Proof.
  apply (decoded_raw_fits_width
           {| Field.T := Field.uint16_t; Field.NBitsT := 12; Field.TID := 0;
              Field.EndianessT := Field.big |} [0x84; 0x0A] 4 1034).
  - vm_compute. split; discriminate.
  - lia.
  - vm_compute. reflexivity.
Defined.

(** X2.  [unmarshal] hands the raw bits to the condition without sign
    extension: for an unsigned value type, or a signed one declared
    narrower than its type, the candidate value is the raw integer itself,
    between 0 and [2^n_bits - 1]; only a signed type at full width yields
    negative values, the two's-complement reading of the raw bits. *)
Theorem unmarshal_no_sign_extension
    (f f' : Field.field_t) (bytes : list Z) (bit_offset : Z) (ok : bool) :
  Field.wf_decl (Field.decl f) → 0 ≤ bit_offset < 2 ^ 64 →
  Field.unmarshal f bytes bit_offset = Some (f', ok) →
  let d := Field.decl f in
  let w := Field.sizeof (Field.T d) * 8 in
  ∃ raw,
    Field.decode_raw d bytes bit_offset = Some raw
    ∧ 0 ≤ raw < 2 ^ Field.n_bits d
    ∧ Field.m_value f' = stored_value f (Field.static_cast (Field.T d) raw)
    ∧ (Field.is_signed (Field.T d) = false ∨ Field.n_bits d < w →
       Field.static_cast (Field.T d) raw = raw)
    ∧ (Field.is_signed (Field.T d) = true → Field.n_bits d = w →
       Field.static_cast (Field.T d) raw
       = if raw <? 2 ^ (w - 1) then raw else raw - 2 ^ w).
Proof.
  intros Hwf Hoff Hun. cbv zeta. revert Hun. unfold Field.unmarshal.
  destruct (Field.decode_raw (Field.decl f) bytes bit_offset) as [raw|] eqn:Hraw;
    simpl; [|done].
  intros [= <- _]. exists raw.
  pose proof (decode_raw_bound _ _ _ _ Hwf Hoff Hraw) as Hb.
  pose proof (pow2_width_half (Field.T (Field.decl f))) as Hhalf.
  destruct Hwf as [Hn0 Hnw]. fold (Field.n_bits (Field.decl f)) in Hn0, Hnw.
  remember (Field.sizeof (Field.T (Field.decl f)) * 8) as w eqn:Ew.
  assert (Hw : 0 ≤ raw < 2 ^ w).
  { split; [lia|]. eapply Z.lt_le_trans; [apply Hb|].
    apply Z.pow_le_mono_r; lia. }
  split; [done|]. split; [done|]. split.
  { unfold stored_value, Field.validate. simpl.
    destruct (Field.m_condition f) as [c|]; [|done].
    destruct (c _) as [ok' [x|]]; done. }
  rewrite static_cast_raw by (rewrite <- Ew; done). rewrite <- Ew. split.
  - intros [Hu|Hn].
    + by rewrite Hu.
    + assert (2 ^ Field.n_bits (Field.decl f) ≤ 2 ^ (w - 1))
        by (apply Z.pow_le_mono_r; lia).
      destruct (Z.leb_spec (2 ^ (w - 1)) raw); [lia|].
      by rewrite andb_false_r.
  - intros Hs Hn. rewrite Hs. simpl.
    destruct (Z.leb_spec (2 ^ (w - 1)) raw), (Z.ltb_spec raw (2 ^ (w - 1)));
      try lia; done.
Qed.

(** A 4-bit field over [int8_t] reads the nibble 1111 as 15, not -1. *)
Lemma unmarshal_no_sign_extension_witness :
  ∃ f',
    Field.unmarshal
      (Field.field_default
         {| Field.T := Field.int8_t; Field.NBitsT := 4; Field.TID := 0;
            Field.EndianessT := Field.little |}) [0xFF] 0 = Some (f', true)
    ∧ Field.m_value f' = 15.
Proof.
  eexists. split; [vm_compute; reflexivity|].
  destruct (unmarshal_no_sign_extension
              (Field.field_default
                 {| Field.T := Field.int8_t; Field.NBitsT := 4; Field.TID := 0;
                    Field.EndianessT := Field.little |})
              _ [0xFF] 0 true
              ltac:(vm_compute; split; discriminate) ltac:(lia) eq_refl)
    as (raw & Hraw & _ & Hval & Hsmall & _).
  revert Hraw. vm_compute. intros [= <-]. reflexivity.
Defined.

(** X3.  The buffer a field's [marshal] returns has [n_bytes] elements,
    each a byte, and in either bit order every bit at or past position
    [n_bits] of the buffer is zero. *)
Theorem field_marshal_shape (f : Field.field_t) :
  Field.wf_decl (Field.decl f) →
  length (Field.marshal f) = Z.to_nat (Field.n_bytes (Field.decl f))
  ∧ ∀ (j : nat) b, Field.marshal f !! j = Some b →
      0 ≤ b < 256
      ∧ ∀ p, 0 ≤ p → Field.n_bits (Field.decl f) ≤ 8 * Z.of_nat j + p →
          Z.testbit b p = false.
Proof. apply marshal_shape. Qed.

Lemma field_marshal_shape_witness :
  length (Field.marshal (Field.assign (Field.field_default second_f) 0xABC))
  = 2%nat
  ∧ Field.marshal (Field.assign (Field.field_default second_f) 0xABC)
    = [0xBC; 0x0A].
Proof.
  destruct (field_marshal_shape
              (Field.assign (Field.field_default second_f) 0xABC)
              ltac:(vm_compute; split; discriminate)) as [Hlen _].
  split; [exact Hlen | reflexivity].
Defined.

(** X4.  LSB-first round trip of a field: [marshal], then [unmarshal] at
    bit 0 into a field of the same declaration, hands to the receiving
    condition a value that agrees with the original modulo [2^n_bits]; it
    is the original itself when that is non-negative and below
    [2^n_bits]. *)
Theorem field_marshal_unmarshal_lsb (f fresh : Field.field_t) :
  Field.wf_decl (Field.decl f) →
  Field.EndianessT (Field.decl f) = Field.little →
  Field.decl fresh = Field.decl f →
  in_range (Field.T (Field.decl f)) (Field.m_value f) →
  ∃ v',
    Field.unmarshal fresh (Field.marshal f) 0
    = Some (Field.validate (Field.set_value fresh v'),
            Field.m_valid (Field.validate (Field.set_value fresh v')))
    ∧ v' mod 2 ^ Field.n_bits (Field.decl f)
      = Field.m_value f mod 2 ^ Field.n_bits (Field.decl f)
    ∧ (0 ≤ Field.m_value f < 2 ^ Field.n_bits (Field.decl f) →
       v' = Field.m_value f).
Proof.
  intros Hwf Hle Hd [Hlo Hhi]. unfold Field.unmarshal. rewrite Hd.
  rewrite decode_marshal_lsb by done. simpl.
  eexists. split; [done|]. split.
  - rewrite static_cast_mod by apply Hwf.
    rewrite Z.mod_mod by (apply Z.pow_nonzero; [lia | apply Hwf]).
    apply to_raw_mod. apply Hwf.
  - intros Hv.
    assert (Hw : 2 ^ Field.n_bits (Field.decl f)
                 ≤ 2 ^ (Field.sizeof (Field.T (Field.decl f)) * 8))
      by (apply Z.pow_le_mono_r; [lia | apply Hwf]).
    unfold Field.to_raw. rewrite (Z.mod_small (Field.m_value f)) by lia.
    rewrite Z.mod_small by done.
    apply static_cast_small. lia.
Qed.

Lemma field_marshal_unmarshal_lsb_witness :
  ∃ f',
    Field.unmarshal (Field.field_default second_f)
      (Field.marshal (Field.assign (Field.field_default second_f) 0xABC)) 0
    = Some (f', true)
    ∧ Field.m_value f' = 0xABC.
Proof.
  destruct (field_marshal_unmarshal_lsb
              (Field.assign (Field.field_default second_f) 0xABC)
              (Field.field_default second_f))
    as (v' & Hun & _ & Hv);
    [vm_compute; split; discriminate | reflexivity | reflexivity
    | vm_compute; split; discriminate |].
  rewrite Hun, (Hv ltac:(vm_compute; split; [discriminate|reflexivity])).
  eexists. split; reflexivity.
Defined.

(** X5.  LSB-first, the other way round: a field that holds what
    [unmarshal] decoded at bit 0 marshals to the bytes it was decoded from,
    with the bits from position [n_bits] on cleared. *)
Theorem field_unmarshal_marshal_lsb
    (f : Field.field_t) (bytes : list Z) (raw : Z) :
  Field.wf_decl (Field.decl f) →
  Field.EndianessT (Field.decl f) = Field.little →
  Field.n_bits (Field.decl f) ≤ 8 * Z.of_nat (length bytes) →
  Field.decode_raw (Field.decl f) bytes 0 = Some raw →
  Field.m_value f = Field.static_cast (Field.T (Field.decl f)) raw →
  ∀ (j : nat) b', Field.marshal f !! j = Some b' →
    ∃ b, bytes !! j = Some b
         ∧ ∀ p, 0 ≤ p →
             Z.testbit b' p
             = (p <? 8) && (8 * Z.of_nat j + p <? Field.n_bits (Field.decl f))
               && Z.testbit b p.
Proof.
  intros Hwf Hle Hlen Hraw Hv j b' Hj.
  pose proof (wf_decl_bound _ Hwf) as Hn.
  destruct (lsb_unmarshal_in_bounds (Field.decl f) bytes 0)
    as (lsb & Hdec & [Hl0 Hl1] & Hbits); [done | done | lia | lia |].
  unfold Field.decode_raw in Hraw. rewrite Hle, Hdec in Hraw.
  injection Hraw as ->.
  destruct (marshal_shape f Hwf) as [Hmlen _].
  destruct (n_bytes_covers _ Hwf) as [Hnb Hcov].
  assert (Hjl : (j < length bytes)%nat).
  { apply lookup_lt_Some in Hj. rewrite Hmlen in Hj.
    unfold Field.n_bytes in *.
    pose proof (Z.div_mod (Field.n_bits (Field.decl f) + 7) 8 ltac:(lia)).
    pose proof (Z.mod_pos_bound (Field.n_bits (Field.decl f) + 7) 8 ltac:(lia)).
    lia. }
  destruct (lookup_lt_is_Some_2 bytes j Hjl) as [b Hb].
  exists b. split; [done|]. intros p Hp.
  revert Hj. rewrite marshal_unfold, Hle. intros Hj.
  destruct (marshal_bits (Field.to_raw (Field.T (Field.decl f))
                            (Field.m_value f)) (λ i, i)
              (Z.to_nat (Field.n_bytes (Field.decl f)))
              (Field.n_bits (Field.decl f)))
    as [_ Hm]; [lia | intros; lia |].
  rewrite (Hm j b' Hj p Hp).
  destruct (Z.ltb_spec p 8) as [Hp8|]; simpl; [|done].
  destruct (Z.ltb_spec (8 * Z.of_nat j + p) (Field.n_bits (Field.decl f)))
    as [Hin|]; simpl; [|done].
  assert (Hto : Field.to_raw (Field.T (Field.decl f)) (Field.m_value f) = raw).
  { rewrite Hv. unfold Field.to_raw.
    rewrite <- (Z.mod_small raw (2 ^ (Field.sizeof (Field.T (Field.decl f)) * 8)))
      at 2.
    - apply (static_cast_mod _ raw (Field.sizeof (Field.T (Field.decl f)) * 8)).
      destruct (Field.T (Field.decl f)); simpl; lia.
    - split; [lia|]. eapply Z.lt_le_trans; [apply Hl1|].
      apply Z.pow_le_mono_r; [lia | apply Hwf]. }
  rewrite Hto.
  destruct (Hbits (8 * Z.of_nat j + p) ltac:(lia)) as (b0 & Hb0 & ->).
  rewrite Z.add_0_l in *.
  replace ((8 * Z.of_nat j + p) / 8) with (Z.of_nat j) in Hb0
    by (apply Z.div_unique with p; lia).
  replace ((8 * Z.of_nat j + p) mod 8) with p
    by (apply Z.mod_unique with (Z.of_nat j); lia).
  unfold read in Hb0. rewrite Nat2Z.id, Hb in Hb0. by injection Hb0 as ->.
Qed.

Lemma field_unmarshal_marshal_lsb_witness :
  Field.marshal (Field.assign (Field.field_default second_f) 0xA84)
  = [0x84; 0x0A].
Proof.
  apply list_eq. intros [|[|j]]; [| |reflexivity].
  - destruct (field_unmarshal_marshal_lsb
                (Field.assign (Field.field_default second_f) 0xA84)
                [0x84; 0xFA] 0xA84
                ltac:(vm_compute; split; discriminate) eq_refl
                ltac:(vm_compute; discriminate) eq_refl eq_refl
                0%nat 0x84 eq_refl) as (b & _ & _).
    reflexivity.
  - reflexivity.
Defined.

(** ** Condition builders *)

(** X6.  A slot configured by [clamp(min, max)] accepts every assigned
    value: a value below [min] is replaced by [min], otherwise one above
    [max] by [max], otherwise it is kept.  With [min <= max] the stored
    value lies in [[min, max]] and validating again changes nothing. *)
Theorem clamp_assign (d : Field.field_decl) (min max v : Z) :
  let f' := Field.assign (Field.clamp d min max) v in
  Field.m_valid f' = true
  ∧ Field.m_value f'
    = (if v <? min then min else if max <? v then max else v)
  ∧ (min ≤ max →
     min ≤ Field.m_value f' ≤ max ∧ Field.validate f' = f').
Proof.
  cbv zeta. unfold Field.assign, Field.clamp, Field.field_of_condition,
    Field.validate, Field.set_value, Field.set_valid, Field.force; simpl.
  destruct (Z.ltb_spec v min) as [H1|H1]; simpl.
  - split; [done|]. split; [done|]. intros Hle.
    split; [lia|]. destruct (Z.ltb_spec min min); [lia|].
    destruct (Z.ltb_spec max min); [lia|]. done.
  - destruct (Z.ltb_spec max v) as [H2|H2]; simpl.
    + split; [done|]. split; [done|]. intros Hle.
      split; [lia|]. destruct (Z.ltb_spec max min); [lia|].
      destruct (Z.ltb_spec max max); [lia|]. done.
    + split; [done|]. split; [done|]. intros Hle.
      split; [lia|]. destruct (Z.ltb_spec v min); [lia|].
      destruct (Z.ltb_spec max v); [lia|]. done.
Qed.

Lemma clamp_assign_witness :
  Field.m_value (Field.assign (Field.clamp first_f 2 5) 9) = 5
  ∧ Field.validate (Field.assign (Field.clamp first_f 2 5) 9)
    = Field.assign (Field.clamp first_f 2 5) 9.
Proof.
  destruct (clamp_assign first_f 2 5 9) as (_ & Hv & Hle).
  destruct (Hle ltac:(lia)) as [_ Hid].
  split; [rewrite Hv; reflexivity | exact Hid].
Defined.

(** With [min > max] a clamped value does not settle: 3 is forced to 5,
    which the next validation forces to 1. *)
Example clamp_crossed_bounds :
  Field.m_value (Field.assign (Field.clamp first_f 5 1) 3) = 5
  ∧ Field.m_value (Field.validate (Field.assign (Field.clamp first_f 5 1) 3))
    = 1.
Proof. split; reflexivity. Qed.

(** X7.  The comparison builders only report: a value assigned to a slot
    configured by one of them is stored as it is, and the slot is valid
    exactly when the comparison holds ([equal_to] over a set: when the
    value is one of its members). *)
Theorem comparison_builders_assign (d : Field.field_decl) (a b v : Z)
    (values : list Z) :
  let stored f := Field.m_value (Field.assign f v) = v in
  let accepts f := Field.m_valid (Field.assign f v) = true in
  (stored (Field.equal_to d a) ∧ (accepts (Field.equal_to d a) ↔ v = a))
  ∧ (stored (Field.not_equal_to d a)
     ∧ (accepts (Field.not_equal_to d a) ↔ v ≠ a))
  ∧ (stored (Field.greater_than d a)
     ∧ (accepts (Field.greater_than d a) ↔ a < v))
  ∧ (stored (Field.less_than d a) ∧ (accepts (Field.less_than d a) ↔ v < a))
  ∧ (stored (Field.greater_equal_to d a)
     ∧ (accepts (Field.greater_equal_to d a) ↔ a ≤ v))
  ∧ (stored (Field.less_equal_to d a)
     ∧ (accepts (Field.less_equal_to d a) ↔ v ≤ a))
  ∧ (stored (Field.between d a b)
     ∧ (accepts (Field.between d a b) ↔ a ≤ v ≤ b))
  ∧ (stored (Field.equal_to_any d values)
     ∧ (accepts (Field.equal_to_any d values) ↔ v ∈ values)).
Proof.
  cbv zeta. unfold Field.assign, Field.validate; simpl.
  split; [split; [done | apply Z.eqb_eq]|].
  split; [split; [done | rewrite negb_true_iff; apply Z.eqb_neq]|].
  split; [split; [done | apply Z.ltb_lt]|].
  split; [split; [done | apply Z.ltb_lt]|].
  split; [split; [done | apply Z.leb_le]|].
  split; [split; [done | apply Z.leb_le]|].
  split; [split; [done | by rewrite andb_true_iff, !Z.leb_le]|].
  split; [done|]. rewrite existsb_exists. split.
  - intros (x & Hin & ->%Z.eqb_eq). by apply list_elem_of_In.
  - intros Hin%list_elem_of_In. exists v. split; [done|]. by apply Z.eqb_eq.
Qed.

(** X8.  The default condition on every declaration over one of the six
    fixed-width integer value types, with a width the [static_assert]s
    admit: a value of the value type is accepted iff it is at most
    [2^n_bits - 1], except that for a signed 8- or 16-bit type at full
    width, where the bound [static_cast<T>((1 << NBitsT) - 1)] is [-1],
    exactly the negative values are accepted. *)
Theorem default_condition_accepts (d : Field.field_decl) (f : Field.field_t)
    (v : Z) :
  Field.wf_decl d →
  Field.m_condition f = Some (Field.default_condition d) →
  in_range (Field.T d) v →
  (¬ signed_narrow_full_width d →
   (Field.m_valid (Field.assign f v) = true ↔ v ≤ 2 ^ Field.n_bits d - 1))
  ∧ (signed_narrow_full_width d →
     (Field.m_valid (Field.assign f v) = true ↔ v < 0)).
Proof.
  intros Hwf Hc [Hlo Hhi]. unfold Field.assign. split.
  - intros Hns. rewrite (default_range_check_spec d) by done.
    unfold Field.n_bits. lia.
  - intros (Hs & Hn & Hw).
    rewrite (validate_default d) by done. simpl.
    assert (Hmax : Field.default_max d = -1).
    { unfold Field.default_max. rewrite Hn.
      destruct (Field.T d); simpl in *; try done; lia. }
    rewrite Hmax, andb_true_iff, !Z.leb_le. lia.
Qed.

Lemma default_condition_accepts_witness :
  Field.m_valid (Field.assign (Field.field_default int8_full) (-3)) = true
  ∧ Field.m_valid (Field.assign (Field.field_default first_f) 15) = true.
Proof.
  split.
  - apply (proj2 (default_condition_accepts int8_full
                    (Field.field_default int8_full) (-3)
                    ltac:(vm_compute; split; discriminate) eq_refl
                    ltac:(vm_compute; split; discriminate))).
    + repeat split; vm_compute; reflexivity.
    + lia.
  - apply (proj1 (default_condition_accepts first_f
                    (Field.field_default first_f) 15
                    ltac:(vm_compute; split; discriminate) eq_refl
                    ltac:(vm_compute; split; discriminate))).
    + intros (H & _ & _). discriminate H.
    + vm_compute. discriminate.
Defined.

(** ** Invariants of the message calls *)

Section MsgInvariants.
Import Field Msg.

Lemma field_eta f : Field.set_valid (set_value f (m_value f)) (m_valid f) = f.
Proof. by destruct f. Qed.

Lemma unmarshal_slot f bytes off f' ok :
  Field.unmarshal f bytes off = Some (f', ok) → same_slot f f'.
Proof.
  intros H. split; [by eapply unmarshal_decl | by eapply unmarshal_condition].
Qed.

(** Decoding looks at the slot only: the value and validity a field holds
    do not matter. *)
Lemma unmarshal_of_slot f g bytes off f' ok :
  same_slot f g → m_value g = m_value f' → m_valid g = ok →
  Field.unmarshal f bytes off = Some (f', ok) →
  Field.unmarshal g bytes off = Some (Field.set_valid g ok, ok).
Proof.
  intros [Hd Hc] Hv Hok. unfold Field.unmarshal. rewrite Hd.
  destruct (decode_raw (decl f) bytes off) as [raw|]; simpl; [|done].
  unfold validate; simpl. rewrite Hc.
  destruct (m_condition f) as [c|]; simpl.
  - destruct (c _) as [ok' [x|]]; simpl; intros [= <- <-]; simpl in *;
      subst; by destruct g; simpl in *; subst.
  - intros [= <- <-]; simpl in *. by destruct g; simpl in *; subst.
Qed.

Lemma unmarshal_again f bytes off f' ok :
  Field.unmarshal f bytes off = Some (f', ok) →
  Field.unmarshal f' bytes off = Some (f', ok).
Proof.
  intros H. pose proof (unmarshal_valid _ _ _ _ _ H) as Hv.
  rewrite (unmarshal_of_slot f f' bytes off f' ok); try done.
  - rewrite <- Hv. by destruct f'.
  - by eapply unmarshal_slot.
Qed.

Lemma unmarshal_tuple_again bytes off fs fs' tr r :
  unmarshal_tuple bytes off fs = Some (fs', tr, r) →
  unmarshal_tuple bytes off fs' = Some (fs', tr, r).
Proof.
  revert off fs' tr r. induction fs as [|f fs IH]; intros off fs' tr r.
  - by intros [= <- <- <-].
  - rewrite unmarshal_tuple_cons.
    destruct (Field.unmarshal f bytes off) as [[f1 ok]|] eqn:Ef; simpl; [|done].
    pose proof (unmarshal_again _ _ _ _ _ Ef) as Ef1.
    destruct ok; simpl.
    + destruct (unmarshal_tuple _ _ fs) as [[[fs1 tr1] r1]|] eqn:E;
        simpl; [|done].
      intros [= <- <- <-]. rewrite unmarshal_tuple_cons, Ef1. simpl.
      by rewrite (IH _ _ _ _ E).
    + intros [= <- <- <-]. rewrite unmarshal_tuple_cons, Ef1. done.
Qed.

Lemma unmarshal_tuple_slots bytes off fs fs' tr r :
  unmarshal_tuple bytes off fs = Some (fs', tr, r) →
  Forall2 same_slot fs fs'.
Proof.
  revert off fs' tr r. induction fs as [|f fs IH]; intros off fs' tr r.
  - intros [= <- _ _]. constructor.
  - rewrite unmarshal_tuple_cons.
    destruct (Field.unmarshal f bytes off) as [[f1 ok]|] eqn:Ef; simpl; [|done].
    pose proof (unmarshal_slot _ _ _ _ _ Ef) as Hs.
    destruct ok; simpl.
    + destruct (unmarshal_tuple _ _ fs) as [[[fs1 tr1] r1]|] eqn:E;
        simpl; [|done].
      intros [= <- _ _]. constructor; [done|]. by eapply IH.
    + intros [= <- _ _]. constructor; [done|].
      apply Forall2_same_length_lookup. split; [done|].
      intros i x y Hx Hy. rewrite Hx in Hy. by injection Hy as <-.
Qed.

(** The verdict of [is_valid_tuple] and the field it reports. *)
Lemma is_valid_tuple_first_invalid pre fk post :
  Forall (λ f, m_valid f = true) pre → m_valid fk = false →
  is_valid_tuple (pre ++ fk :: post) = ([on_error_condition (id fk)], false).
Proof.
  induction 1 as [|f pre Hf _ IH]; intros Hk; simpl.
  - unfold Field.is_valid. by rewrite Hk.
  - unfold Field.is_valid. rewrite Hf. simpl. by apply IH.
Qed.

Lemma is_valid_tuple_cases fs :
  (Forall (λ f, m_valid f = true) fs ∧ is_valid_tuple fs = ([], true))
  ∨ ∃ pre fk post,
      fs = pre ++ fk :: post
      ∧ Forall (λ f, m_valid f = true) pre ∧ m_valid fk = false.
Proof.
  induction fs as [|f fs IH].
  - left. by split.
  - destruct (m_valid f) eqn:Hf.
    + destruct IH as [[Hall Hiv]|(pre & fk & post & -> & Hpre & Hk)].
      * left. split; [by constructor|]. simpl. unfold Field.is_valid.
        by rewrite Hf.
      * right. exists (f :: pre), fk, post. repeat split; [|done].
        by constructor.
    + right. exists [], f, fs. by repeat split.
Qed.

(** The outcome of a call whose size check passes. *)
Lemma on_unmarshal_decode_valid m bytes off m' tr r :
  on_unmarshal_decode m bytes off = Some (m', tr, r) →
  (Msg.is_valid m').2 = r.
Proof.
  destruct (unmarshal_tuple bytes off (fields m))
    as [[[fs' tr0] [|]]|] eqn:Hrun.
  - destruct (unmarshal_tuple_true _ _ _ _ _ Hrun) as [-> Hall].
    rewrite (on_unmarshal_decode_true _ _ _ _ Hrun).
    pose proof (is_valid_tuple_true _ Hall) as Hiv.
    destruct (m_custom_validator m) as [cv|] eqn:Hcv;
      [destruct (cv fs') eqn:Hacc|];
      intros [= <- _ <-]; unfold Msg.is_valid; simpl;
      rewrite Hiv, Hcv; simpl; done.
  - rewrite (on_unmarshal_decode_false _ _ _ _ _ Hrun).
    intros [= <- _ <-]. unfold Msg.is_valid. simpl.
    destruct (unmarshal_tuple_offsets _ _ _ _ _ _ Hrun)
      as (n & _ & _ & (f' & Hf' & Hinv & _) & _).
    rewrite (surjective_pairing (is_valid_tuple fs')).
    rewrite (is_valid_tuple_false fs' f'); [|by eapply list_elem_of_lookup_2|done].
    by destruct (m_custom_validator m).
  - unfold on_unmarshal_decode. by rewrite Hrun.
Qed.
Lemma same_slot_decls fs fs' :
  Forall2 same_slot fs fs' → decl <$> fs' = decl <$> fs.
Proof. induction 1 as [|x y xs ys [Hd _] _ IH]; [done|]. simpl. by f_equal. Qed.

(** Running the part after the size check again, on what it left. *)
Lemma on_unmarshal_decode_again m bytes off m' tr r :
  on_unmarshal_decode m bytes off = Some (m', tr, r) →
  on_unmarshal_decode m' bytes off = Some (m', tr, r).
Proof.
  destruct (unmarshal_tuple bytes off (fields m))
    as [[[fs' tr0] [|]]|] eqn:Hrun.
  - pose proof (unmarshal_tuple_again _ _ _ _ _ _ Hrun) as Hagain.
    destruct (unmarshal_tuple_true _ _ _ _ _ Hrun) as [-> Hall].
    rewrite (on_unmarshal_decode_true _ _ _ _ Hrun).
    destruct (m_custom_validator m) as [cv|] eqn:Hcv;
      [destruct (cv fs') eqn:Hacc|];
      intros [= <- <- <-];
      rewrite (on_unmarshal_decode_true _ _ _ fs') by done;
      simpl; rewrite Hcv, ?Hacc; done.
  - pose proof (unmarshal_tuple_again _ _ _ _ _ _ Hrun) as Hagain.
    rewrite (on_unmarshal_decode_false _ _ _ _ _ Hrun).
    intros [= <- <- <-].
    by rewrite (on_unmarshal_decode_false _ _ _ fs' tr0).
  - unfold on_unmarshal_decode. by rewrite Hrun.
Qed.

Lemma on_unmarshal_decode_slots m bytes off m' tr r :
  on_unmarshal_decode m bytes off = Some (m', tr, r) →
  Forall2 same_slot (fields m) (fields m')
  ∧ m_callback m' = m_callback m
  ∧ m_custom_validator m' = m_custom_validator m
  ∧ valid m' = r.
Proof.
  destruct (unmarshal_tuple bytes off (fields m))
    as [[[fs' tr0] [|]]|] eqn:Hrun.
  - pose proof (unmarshal_tuple_slots _ _ _ _ _ _ Hrun) as Hslots.
    destruct (unmarshal_tuple_true _ _ _ _ _ Hrun) as [-> Hall].
    rewrite (on_unmarshal_decode_true _ _ _ _ Hrun).
    destruct (m_custom_validator m) as [cv|] eqn:Hcv; [destruct (cv fs')|];
      intros [= <- _ <-]; simpl; repeat split; done.
  - pose proof (unmarshal_tuple_slots _ _ _ _ _ _ Hrun) as Hslots.
    rewrite (on_unmarshal_decode_false _ _ _ _ _ Hrun).
    intros [= <- _ <-]; simpl; repeat split; done.
  - unfold on_unmarshal_decode. by rewrite Hrun.
Qed.
End MsgInvariants.

(** X9.  [is_valid()] is true exactly when every field is valid and the
    custom validator is absent or accepts the fields.  When some field is
    invalid, the call reports [on_error_condition] for the first such
    field, once, and does not run the custom validator. *)
Theorem msg_is_valid_verdict (m : Msg.msg_t) :
  ((Msg.is_valid m).2 = true
   ↔ Forall (λ f, Field.m_valid f = true) (Msg.fields m)
     ∧ (Msg.m_custom_validator m = None
        ∨ ∃ cv, Msg.m_custom_validator m = Some cv
                ∧ cv (Msg.fields m) = true))
  ∧ (∀ pre fk post,
       Msg.fields m = pre ++ fk :: post →
       Forall (λ f, Field.m_valid f = true) pre →
       Field.m_valid fk = false →
       Msg.is_valid m = ([Msg.on_error_condition (Field.id fk)], false)).
Proof.
  split.
  - unfold Msg.is_valid.
    destruct (is_valid_tuple_cases (Msg.fields m))
      as [[Hall ->]|(pre & fk & post & Hfs & Hpre & Hk)].
    + destruct (Msg.m_custom_validator m) as [cv|]; simpl.
      * split; [intros Hcv; eauto|]. by intros [_ [|(? & [= <-] & ?)]].
      * split; [by auto|done].
    + rewrite Hfs at 1. rewrite is_valid_tuple_first_invalid by done.
      assert (Hnot : ¬ Forall (λ f, Field.m_valid f = true) (Msg.fields m)).
      { rewrite Hfs. intros [_ Hc]%Forall_app. apply Forall_cons in Hc as [Hc _].
        congruence. }
      destruct (Msg.m_custom_validator m); simpl; split; try done;
        by intros [? _].
  - intros pre fk post Hfs Hpre Hk. unfold Msg.is_valid.
    rewrite Hfs at 1. rewrite is_valid_tuple_first_invalid by done.
    by destruct (Msg.m_custom_validator m).
Qed.

Lemma msg_is_valid_verdict_witness :
  Msg.is_valid example_msg = ([Msg.on_error_condition 0], false).
Proof.
  apply (proj2 (msg_is_valid_verdict example_msg)
           [] (Field.field_copy (Field.between first_f 0 2))
           [Field.field_copy (Field.any second_f)]); done.
Defined.

(** X10.  When the size check passes, what [on_unmarshal] returns is what
    [is_valid()] answers afterwards.  When the size check fails the call
    returns false but leaves the answer of [is_valid()] as it was: the
    [valid] member that was cleared is not what [is_valid()] reads. *)
Theorem on_unmarshal_result_and_is_valid
    (m m' : Msg.msg_t) (bytes : list Z) (len bit_offset : Z)
    (tr : list Msg.event) (r : bool) :
  Msg.unmarshal m bytes len bit_offset = Some (m', tr, r) →
  if Msg.bits_available len bit_offset <? Msg.n_bits m
  then r = false ∧ Msg.is_valid m' = Msg.is_valid m
  else (Msg.is_valid m').2 = r.
Proof.
  unfold Msg.unmarshal, Msg.on_unmarshal.
  destruct (_ <? _).
  - by intros [= <- _ <-].
  - destruct (Msg.on_unmarshal_decode m bytes bit_offset)
      as [[[m1 tr1] r1]|] eqn:E; simpl; [|done].
    intros [= <- _ <-]. by eapply on_unmarshal_decode_valid.
Qed.

(** A buffer that is too short: the call returns false and [is_valid()]
    answers as before the call. *)
Lemma on_unmarshal_result_and_is_valid_witness :
  ∃ m' tr,
    Msg.unmarshal example_msg [0x80] 1 0 = Some (m', tr, false)
    ∧ Msg.is_valid m' = Msg.is_valid example_msg.
Proof.
  exists (Msg.set_valid example_msg false),
    [Msg.on_unmarshal_start; Msg.on_error_bit_size 8 16].
  split; [reflexivity|].
  apply (on_unmarshal_result_and_is_valid example_msg
           (Msg.set_valid example_msg false) [0x80] 1 0
           [Msg.on_unmarshal_start; Msg.on_error_bit_size 8 16] false
           eq_refl).
Defined.

(** X11.  The fields of a message built by [make_msg] or [make_msg_cat]
    are copies: same slots and same values as the fields given, all marked
    invalid, whatever their validity was.  Such a message reports invalid,
    naming its first field. *)
Theorem constructed_message_invalid
    (cb : option nat) (A : Msg.msg_t) (f : Field.field_t)
    (fs : list Field.field_t) :
  let built (m : Msg.msg_t) (given : list Field.field_t) :=
    Forall2 same_slot given (Msg.fields m)
    ∧ values m = Field.m_value <$> given
    ∧ validities m = replicate (length given) false
    ∧ Msg.valid m = false in
  built (Msg.make_msg cb (f :: fs)) (f :: fs)
  ∧ Msg.is_valid (Msg.make_msg cb (f :: fs))
    = ([Msg.on_error_condition (Field.id f)], false)
  ∧ built (Msg.make_msg_cat cb A (f :: fs)) (Msg.fields A ++ f :: fs)
  ∧ (Msg.is_valid (Msg.make_msg_cat cb A (f :: fs))).2 = false.
Proof.
  assert (Hcopy : ∀ gs : list Field.field_t,
            Forall2 same_slot gs (Field.field_copy <$> gs)
            ∧ Field.m_value <$> (Field.field_copy <$> gs) = Field.m_value <$> gs
            ∧ Field.m_valid <$> (Field.field_copy <$> gs)
              = replicate (length gs) false).
  { induction gs as [|g gs (IH1 & IH2 & IH3)]; [by repeat constructor|].
    split; [by constructor|]. split; simpl; by f_equal. }
  cbv zeta. split; [|split; [|split]].
  - unfold values, validities, Msg.make_msg, Msg.msg_of_fields. simpl Msg.fields.
    destruct (Hcopy (f :: fs)) as (H1 & H2 & H3). done.
  - reflexivity.
  - unfold values, validities. rewrite fields_make_msg_cat, <- fmap_app.
    destruct (Hcopy (Msg.fields A ++ f :: fs)) as (H1 & H2 & H3). done.
  - unfold Msg.is_valid. rewrite fields_make_msg_cat.
    rewrite (surjective_pairing (Msg.is_valid_tuple _)).
    rewrite (is_valid_tuple_false _ (Field.field_copy f)); [done| |done].
    apply elem_of_app. right. simpl. apply elem_of_cons. by left.
Qed.

(** X12.  Decoding the same buffer again changes nothing: a second
    [on_unmarshal] with the same arguments on the message the first one
    left returns the same result, the same events and the same message. *)
Theorem on_unmarshal_idempotent
    (m m' : Msg.msg_t) (bytes : list Z) (len bit_offset : Z)
    (tr : list Msg.event) (r : bool) :
  Msg.unmarshal m bytes len bit_offset = Some (m', tr, r) →
  Msg.unmarshal m' bytes len bit_offset = Some (m', tr, r).
Proof.
  unfold Msg.unmarshal, Msg.on_unmarshal.
  destruct (_ <? Msg.n_bits m) eqn:Hsize.
  - intros [= <- <- <-]. unfold Msg.n_bits in *. simpl. by rewrite Hsize.
  - destruct (Msg.on_unmarshal_decode m bytes bit_offset)
      as [[[m1 tr1] r1]|] eqn:E; simpl; [|done].
    intros [= <- <- <-].
    destruct (on_unmarshal_decode_slots _ _ _ _ _ _ E) as (Hslots & _).
    unfold Msg.n_bits. rewrite (same_slot_decls _ _ Hslots).
    fold (Msg.n_bits m). rewrite Hsize.
    by rewrite (on_unmarshal_decode_again _ _ _ _ _ _ E).
Qed.

Lemma on_unmarshal_idempotent_witness :
  ∃ m' tr,
    Msg.unmarshal example_msg [0x84; 0x0A] 2 0 = Some (m', tr, false)
    ∧ Msg.unmarshal m' [0x84; 0x0A] 2 0 = Some (m', tr, false).
Proof.
  eexists _, _. split; [vm_compute; reflexivity|].
  apply (on_unmarshal_idempotent example_msg). vm_compute. reflexivity.
Defined.

(** X13.  For fields within their [static_assert]s and a total below
    [2^64], a message's [n_bits] is the sum of its fields' widths, and the
    message [make_msg_cat] builds from [A] and the fields [D] has
    [A.n_bits] plus the widths of [D]. *)
Theorem n_bits_is_sum
    (cb : option nat) (A : Msg.msg_t) (D : list Field.field_t) :
  Forall (λ f, Field.wf_decl (Field.decl f)) (Msg.fields A ++ D) →
  total_bits (Msg.fields A ++ D) < 2 ^ 64 →
  Msg.n_bits A = total_bits (Msg.fields A)
  ∧ Msg.n_bits (Msg.make_msg_cat cb A D) = Msg.n_bits A + total_bits D.
Proof.
  intros Hwf Htotal. pose proof Hwf as [HwfA HwfD]%Forall_app.
  pose proof (total_bits_nonneg _ HwfA). pose proof (total_bits_nonneg _ HwfD).
  rewrite total_bits_app in Htotal.
  assert (HA : Msg.n_bits A = total_bits (Msg.fields A)).
  { unfold Msg.n_bits. rewrite sum_bits_total by done. apply size_t_small. lia. }
  split; [done|]. rewrite HA. unfold Msg.n_bits.
  rewrite fields_make_msg_cat, <- fmap_app, sum_bits_total.
  - rewrite total_bits_field_copy, total_bits_app. apply size_t_small. lia.
  - apply Forall_fmap. eapply Forall_impl; [exact Hwf|done].
Qed.

Lemma n_bits_is_sum_witness :
  Msg.n_bits first_msg = 4 ∧ Msg.n_bits cat_msg = 4 + 12.
Proof.
  apply (n_bits_is_sum (Some 0%nat) first_msg [Field.any second_f]).
  - repeat constructor; vm_compute; discriminate.
  - vm_compute. reflexivity.
Defined.

(** X14.  [on_unmarshal] writes values and validity only: whatever it
    returns, the message keeps its number of fields, every field keeps its
    declaration and its condition, and the callback, the custom validator
    and [n_bits] are those of before the call. *)
Theorem on_unmarshal_keeps_slots
    (m m' : Msg.msg_t) (bytes : list Z) (len bit_offset : Z)
    (tr : list Msg.event) (r : bool) :
  Msg.unmarshal m bytes len bit_offset = Some (m', tr, r) →
  Forall2 same_slot (Msg.fields m) (Msg.fields m')
  ∧ Msg.n_fields m' = Msg.n_fields m
  ∧ Msg.n_bits m' = Msg.n_bits m
  ∧ Msg.m_callback m' = Msg.m_callback m
  ∧ Msg.m_custom_validator m' = Msg.m_custom_validator m
  ∧ Msg.valid m' = r.
Proof.
  intros Hcall.
  assert (H : Forall2 same_slot (Msg.fields m) (Msg.fields m')
              ∧ Msg.m_callback m' = Msg.m_callback m
              ∧ Msg.m_custom_validator m' = Msg.m_custom_validator m
              ∧ Msg.valid m' = r).
  { revert Hcall. unfold Msg.unmarshal, Msg.on_unmarshal.
    destruct (_ <? _).
    - intros [= <- _ <-]. split; [|done].
      apply Forall2_same_length_lookup. split; [done|].
      intros i x y Hx Hy. simpl in Hy. rewrite Hx in Hy. by injection Hy as <-.
    - destruct (Msg.on_unmarshal_decode m bytes bit_offset)
        as [[[m1 tr1] r1]|] eqn:E; simpl; [|done].
      intros [= <- _ <-]. by eapply on_unmarshal_decode_slots. }
  destruct H as (Hslots & Hcb & Hcv & Hvalid).
  repeat split; try done.
  - unfold Msg.n_fields. symmetry. by eapply Forall2_length.
  - unfold Msg.n_bits. by rewrite (same_slot_decls _ _ Hslots).
Qed.

Lemma on_unmarshal_keeps_slots_witness :
  ∃ m' tr,
    Msg.unmarshal example_msg [0x84; 0x0A] 2 0 = Some (m', tr, false)
    ∧ Msg.n_fields m' = 2%nat ∧ Msg.n_bits m' = 16.
Proof.
  eexists _, _. split; [vm_compute; reflexivity|].
  match goal with
  | |- Msg.n_fields ?m' = _ ∧ _ =>
      destruct (on_unmarshal_keeps_slots example_msg m' [0x84; 0x0A] 2 0 _ false
                  ltac:(vm_compute; reflexivity)) as (_ & Hn & Hb & _)
  end.
  rewrite Hn, Hb. split; reflexivity.
Defined.

(** X15.  The events of one [on_unmarshal] call have one of four shapes:
    start and a bit-size error; start, the unmarshal error of one field and
    end; start, end and a validator run that rejected; or, when the call
    returns true, start, end, the validator run if there is a validator and
    the callback run if there is a callback.  In particular no call
    reports [on_error_condition], and none reports two errors. *)
Theorem on_unmarshal_events
    (m m' : Msg.msg_t) (bytes : list Z) (len bit_offset : Z)
    (tr : list Msg.event) (r : bool) :
  Msg.unmarshal m bytes len bit_offset = Some (m', tr, r) →
  (r = false
   ∧ tr = [Msg.on_unmarshal_start;
           Msg.on_error_bit_size (Msg.bits_available len bit_offset)
             (Msg.n_bits m)])
  ∨ (r = false
     ∧ ∃ fk, fk ∈ Msg.fields m' ∧ Field.m_valid fk = false
             ∧ tr = [Msg.on_unmarshal_start;
                     Msg.on_error_unmarshal (Field.id fk);
                     Msg.on_unmarshal_end])
  ∨ (r = false
     ∧ tr = [Msg.on_unmarshal_start; Msg.on_unmarshal_end;
             Msg.custom_validator_called (Msg.fields m')])
  ∨ (r = true
     ∧ tr = [Msg.on_unmarshal_start; Msg.on_unmarshal_end]
            ++ match Msg.m_custom_validator m with
               | Some _ => [Msg.custom_validator_called (Msg.fields m')]
               | None => []
               end
            ++ callback_events m (Msg.fields m')).
Proof.
  unfold Msg.unmarshal, Msg.on_unmarshal.
  destruct (_ <? _).
  { intros [= <- <- <-]. by left. }
  destruct (Msg.unmarshal_tuple bytes bit_offset (Msg.fields m))
    as [[[fs' tr0] [|]]|] eqn:Hrun.
  - destruct (unmarshal_tuple_true _ _ _ _ _ Hrun) as [-> _].
    rewrite (on_unmarshal_decode_true _ _ _ _ Hrun). unfold callback_events.
    destruct (Msg.m_custom_validator m) as [cv|]; [destruct (cv fs')|];
      simpl; intros [= <- <- <-]; simpl; auto.
  - rewrite (on_unmarshal_decode_false _ _ _ _ _ Hrun). simpl.
    intros [= <- <- <-]. right. left. split; [done|].
    clear -Hrun. revert bit_offset fs' tr0 Hrun.
    induction (Msg.fields m) as [|f fs IH]; intros off fs' tr0; [done|].
    rewrite unmarshal_tuple_cons.
    destruct (Field.unmarshal f bytes off) as [[f1 ok]|] eqn:Ef; simpl; [|done].
    destruct ok; simpl.
    + destruct (Msg.unmarshal_tuple _ _ fs) as [[[fs1 tr1] r1]|] eqn:E;
        simpl; [|done].
      intros [= <- <- ->]. destruct (IH _ _ _ E) as (fk & Hin & Hk & ->).
      exists fk. repeat split; [|done]. simpl. apply elem_of_cons. by right.
    + intros [= <- <-]. exists f1. simpl. repeat split.
      * apply elem_of_cons. by left.
      * by apply (unmarshal_valid _ _ _ _ _ Ef).
  - unfold Msg.on_unmarshal_decode. by rewrite Hrun.
Qed.

Lemma on_unmarshal_events_witness :
  ∃ m' tr,
    Msg.unmarshal example_msg [0x80; 0x0A] 2 0 = Some (m', tr, true)
    ∧ tr = [Msg.on_unmarshal_start; Msg.on_unmarshal_end;
            Msg.callback_called 0 (Msg.fields m')].
Proof.
  eexists _, _. split; [vm_compute; reflexivity|].
  match goal with
  | |- ?tr = [_; _; Msg.callback_called _ (Msg.fields ?m')] =>
      destruct (on_unmarshal_events example_msg m' [0x80; 0x0A] 2 0 tr true
                  ltac:(vm_compute; reflexivity))
        as [[H _]|[[H _]|[[H _]|[_ H]]]]; try discriminate H
  end.
  exact H.
Defined.

(** ** Marshalling a message *)

Section Carry.

Lemma testbit_uint16 x p :
  0 ≤ p → Z.testbit (uint16 x) p = (p <? 16) && Z.testbit x p.
Proof.
  intros Hp. unfold uint16. destruct (Z.ltb_spec p 16).
  - by rewrite Z.mod_pow2_bits_low.
  - by rewrite Z.mod_pow2_bits_high.
Qed.

Lemma byte_high b p : 0 ≤ b < 256 → 8 ≤ p → Z.testbit b p = false.
Proof.
  intros Hb Hp. rewrite <- (Z.mod_small b (2 ^ 8)) by (simpl; lia).
  apply Z.mod_pow2_bits_high. lia.
Qed.

Lemma is_bytes_lookup bytes (j : nat) :
  is_bytes bytes → 0 ≤ default 0 (bytes !! j) < 256.
Proof.
  intros H. destruct (bytes !! j) as [b|] eqn:E; simpl; [|lia].
  by apply (Forall_lookup_1 _ _ _ _ H E).
Qed.

Lemma buf_bit_split bytes k q :
  0 ≤ k → 0 ≤ q < 8 →
  buf_bit bytes (8 * k + q) = Z.testbit (default 0 (read bytes k)) q.
Proof.
  intros Hk Hq. unfold buf_bit.
  replace ((8 * k + q) / 8) with k by (apply Z.div_unique with q; lia).
  replace ((8 * k + q) mod 8) with q by (apply Z.mod_unique with k; lia).
  destruct (Z.leb_spec 0 (8 * k + q)); [done|lia].
Qed.

Lemma buf_bit_neg bytes g : g < 0 → buf_bit bytes g = false.
Proof. intros. unfold buf_bit. destruct (Z.leb_spec 0 g); [lia|done]. Qed.

Lemma buf_bit_past bytes g :
  8 * Z.of_nat (length bytes) ≤ g → buf_bit bytes g = false.
Proof.
  intros Hg. unfold buf_bit, read. rewrite lookup_ge_None_2.
  - simpl. rewrite Z.bits_0. by rewrite andb_false_r.
  - apply Nat2Z.inj_le. rewrite Z2Nat.id by (apply Z.div_pos; lia).
    apply Z.div_le_lower_bound; lia.
Qed.

Lemma uint8_byte x : 0 ≤ uint8 x < 256.
Proof. unfold uint8. apply (Z.mod_pos_bound x (2 ^ 8)). done. Qed.

(** The carry loop after [i] iterations: the bytes written so far hold, OR-ed
    into what was there, the bits of [data] moved up by [s]; [ov] holds the
    bits of the last byte of [data] that were shifted out. *)
Lemma carry_loop data B bo s (i : nat) :
  is_bytes B → is_bytes data → 0 ≤ bo → 0 ≤ s < 8 →
  (i ≤ length data)%nat → bo + Z.of_nat i ≤ Z.of_nat (length B) →
  ∃ B' ov,
    foldl (carry_step data bo s) (Some (B, 0)) (seqZ 0 (Z.of_nat i))
    = Some (B', ov)
    ∧ length B' = length B
    ∧ is_bytes B'
    ∧ 0 ≤ ov
    ∧ (∀ p, 0 ≤ p →
         Z.testbit ov p
         = (0 <? Z.of_nat i)
           && Z.testbit (default 0 (read data (Z.of_nat i - 1))) (p + 8 - s))
    ∧ ∀ (j : nat) p, 0 ≤ p < 8 →
        Z.testbit (default 0 (B' !! j)) p
        = Z.testbit (default 0 (B !! j)) p
          || ((bo <=? Z.of_nat j) && (Z.of_nat j <? bo + Z.of_nat i)
              && buf_bit data (8 * (Z.of_nat j - bo) + p - s)).
Proof.
  intros HB Hdata Hbo Hs. induction i as [|i IH]; intros Hi Hlen.
  - exists B, 0. rewrite seqZ_nil by lia. simpl.
    repeat split; try done.
    + intros p Hp. by rewrite Z.bits_0.
    + intros j p Hp.
      destruct (Z.leb_spec bo (Z.of_nat j)), (Z.ltb_spec (Z.of_nat j) (bo + Z.of_nat 0));
        try lia; simpl; by rewrite orb_false_r.
  - destruct IH as (Bi & ovi & Hrun & HlenBi & HBi & Hov0 & Hov & Hbits);
      [lia..|].
    rewrite seqZ_S, foldl_snoc, Hrun, Z.add_0_l. unfold carry_step at 1. simpl.
    destruct (lookup_lt_is_Some_2 Bi (Z.to_nat (bo + Z.of_nat i))) as [b Hb];
      [lia|].
    destruct (lookup_lt_is_Some_2 data i) as [d Hd]; [lia|].
    unfold read. rewrite Hb, Nat2Z.id, Hd. simpl.
    eexists _, _. split; [done|].
    assert (Hbb : 0 ≤ b < 256) by apply (Forall_lookup_1 _ _ _ _ HBi Hb).
    assert (Hdb : 0 ≤ d < 256) by apply (Forall_lookup_1 _ _ _ _ Hdata Hd).
    assert (Hprev : 0 ≤ default 0 (read data (Z.of_nat i - 1)) < 256)
      by apply (is_bytes_lookup _ _ Hdata).
    (* the bits of the 16-bit temporary *)
    assert (Hbyte : ∀ p, 0 ≤ p →
              Z.testbit (uint16 (Z.lor (uint16 (Z.lor b ovi)) (Z.shiftl d s))) p
              = (p <? 16)
                && (Z.testbit b p
                    || ((0 <? Z.of_nat i)
                        && Z.testbit (default 0 (read data (Z.of_nat i - 1)))
                             (p + 8 - s))
                    || Z.testbit d (p - s))).
    { intros p Hp.
      rewrite testbit_uint16, Z.lor_spec, testbit_uint16, Z.lor_spec by done.
      rewrite Hov, Z.shiftl_spec by done.
      destruct (Z.ltb_spec p 16); simpl; done. }
    split; [by rewrite length_insert|].
    split.
    { apply Forall_insert; [done|]. apply uint8_byte. }
    split.
    { unfold uint16. apply Z.mod_pos_bound. done. }
    split.
    + intros p Hp. rewrite testbit_uint16, Z.shiftr_spec, Hbyte by lia.
      rewrite (byte_high b (p + 8)) by lia.
      rewrite (byte_high _ (p + 8 + 8 - s) Hprev) by lia.
      rewrite andb_false_r. simpl.
      replace (Z.of_nat (S i) - 1) with (Z.of_nat i) by lia.
      unfold read. rewrite Nat2Z.id, Hd. simpl.
      replace (p + 8 - s) with (p + 8 - s) by lia.
      destruct (Z.ltb_spec 0 (Z.of_nat (S i))); [|lia]. simpl.
      destruct (Z.ltb_spec p 16), (Z.ltb_spec (p + 8) 16); simpl; try done;
        try lia; symmetry; apply byte_high; try done; lia.
    + intros j p Hp.
      destruct (decide (j = Z.to_nat (bo + Z.of_nat i))) as [->|Hne].
      * rewrite list_lookup_insert_eq by lia. simpl.
        rewrite testbit_uint8, Hbyte by lia.
        pose proof (Hbits (Z.to_nat (bo + Z.of_nat i)) p Hp) as Hold.
        rewrite Hb in Hold. simpl in Hold. rewrite Hold.
        rewrite Z2Nat.id by lia.
        destruct (Z.ltb_spec (bo + Z.of_nat i) (bo + Z.of_nat i)); [lia|].
        destruct (Z.ltb_spec (bo + Z.of_nat i) (bo + Z.of_nat (S i))); [|lia].
        destruct (Z.leb_spec bo (bo + Z.of_nat i)); [|lia].
        destruct (Z.ltb_spec p 8); [|lia].
        destruct (Z.ltb_spec p 16); [|lia].
        simpl. rewrite orb_false_r, <- orb_assoc. f_equal.
        replace (bo + Z.of_nat i - bo) with (Z.of_nat i) by lia.
        destruct (Z.le_gt_cases s p) as [Hsp|Hsp].
        -- replace (8 * Z.of_nat i + p - s) with (8 * Z.of_nat i + (p - s))
             by lia.
           rewrite buf_bit_split by lia.
           unfold read at 2. rewrite Nat2Z.id, Hd. simpl.
           rewrite (byte_high _ (p + 8 - s) Hprev) by lia.
           by rewrite andb_false_r.
        -- rewrite (Z.testbit_neg_r d) by lia. rewrite orb_false_r.
           destruct (Z.ltb_spec 0 (Z.of_nat i)); simpl.
           ++ replace (8 * Z.of_nat i + p - s)
                with (8 * (Z.of_nat i - 1) + (p + 8 - s)) by lia.
              by rewrite buf_bit_split by lia.
           ++ rewrite buf_bit_neg; [done|lia].
      * rewrite list_lookup_insert_ne by done. rewrite Hbits by done.
        f_equal.
        destruct (Z.ltb_spec (Z.of_nat j) (bo + Z.of_nat i)),
          (Z.ltb_spec (Z.of_nat j) (bo + Z.of_nat (S i))); try done; lia.
Qed.

(** A byte of a buffer, by bits. *)
Lemma buf_bit_byte bytes (j : nat) p :
  0 ≤ p < 8 →
  buf_bit bytes (8 * Z.of_nat j + p) = Z.testbit (default 0 (bytes !! j)) p.
Proof.
  intros Hp. rewrite buf_bit_split by lia. unfold read. by rewrite Nat2Z.id.
Qed.

Lemma buf_bit_ext B1 B2 :
  (∀ (j : nat) p, 0 ≤ p < 8 →
     Z.testbit (default 0 (B1 !! j)) p = Z.testbit (default 0 (B2 !! j)) p) →
  ∀ g, buf_bit B1 g = buf_bit B2 g.
Proof.
  intros H g. destruct (Z.lt_ge_cases g 0) as [Hg|Hg].
  - by rewrite !buf_bit_neg.
  - pose proof (Z.div_mod g 8 ltac:(lia)) as Hdm.
    pose proof (Z.mod_pos_bound g 8 ltac:(lia)) as Hm.
    assert (0 ≤ g / 8) by (apply Z.div_pos; lia).
    rewrite Hdm. rewrite <- (Z2Nat.id (g / 8)) by done.
    rewrite !buf_bit_byte by done. by apply H.
Qed.

(** Past [n_bits] a field's marshalled buffer has no bit set. *)
Lemma marshal_bit_past f t :
  Field.wf_decl (Field.decl f) → Field.n_bits (Field.decl f) ≤ t →
  buf_bit (Field.marshal f) t = false.
Proof.
  intros Hwf Ht. pose proof (wf_decl_bound _ Hwf) as Hn.
  destruct (marshal_shape f Hwf) as [_ Hshape].
  unfold buf_bit. destruct (Z.leb_spec 0 t); [simpl|done].
  unfold read. destruct (Field.marshal f !! Z.to_nat (t / 8)) as [b|] eqn:Hb;
    simpl; [|apply Z.bits_0].
  destruct (Hshape _ _ Hb) as [_ Hz]. apply Hz.
  - apply Z.mod_pos_bound. lia.
  - rewrite Z2Nat.id by (apply Z.div_pos; lia).
    pose proof (Z.div_mod t 8 ltac:(lia)). lia.
Qed.

(** Packing one field: the buffer keeps its length, and its bits are those
    it had, OR-ed with the field's marshalled bits moved to [o]. *)
Lemma marshal_field_spec field B o :
  Field.wf_decl (Field.decl field) → is_bytes B → 0 ≤ o →
  o + Field.n_bits (Field.decl field) ≤ 8 * Z.of_nat (length B) →
  ∃ B',
    Msg.marshal_field field B o = Some B'
    ∧ length B' = length B
    ∧ is_bytes B'
    ∧ ∀ g, buf_bit B' g = buf_bit B g || buf_bit (Field.marshal field) (g - o).
Proof.
  intros Hwf HB Ho Hfit.
  pose proof (wf_decl_bound _ Hwf) as Hn.
  destruct (marshal_shape field Hwf) as [Hdlen Hshape].
  destruct (n_bytes_covers _ Hwf) as [Hnb0 Hcov].
  assert (Hdata : is_bytes (Field.marshal field)).
  { apply Forall_lookup_2. intros j b Hb. by apply (Hshape j b Hb). }
  set (bo := o / 8). set (s := o mod 8).
  set (nb := Field.n_bytes (Field.decl field)) in *.
  assert (Hs : 0 ≤ s < 8) by (apply Z.mod_pos_bound; lia).
  assert (Hbo : 0 ≤ bo) by (apply Z.div_pos; lia).
  assert (Ho' : o = 8 * bo + s) by (apply Z.div_mod; lia).
  assert (Hnb8 : 8 * nb ≤ Field.n_bits (Field.decl field) + 7).
  { unfold nb, Field.n_bytes.
    pose proof (Z.div_mod (Field.n_bits (Field.decl field) + 7) 8 ltac:(lia)).
    pose proof (Z.mod_pos_bound (Field.n_bits (Field.decl field) + 7) 8
                  ltac:(lia)). lia. }
  destruct (carry_loop (Field.marshal field) B bo s (Z.to_nat nb))
    as (B1 & ov & Hrun & Hlen1 & HB1 & Hov0 & Hov & Hbits);
    [done | done | done | done | lia | lia |].
  rewrite Z2Nat.id in * by done.
  (* the overflow left after the loop, as bits of the field's buffer *)
  assert (Hovbit : ∀ p, 0 ≤ p →
            Z.testbit ov p
            = (p <? 8) && buf_bit (Field.marshal field) (8 * nb + p - s)).
  { intros p Hp. rewrite Hov by done.
    pose proof (is_bytes_lookup _ (Z.to_nat (nb - 1)) Hdata) as Hprev.
    destruct (Z.ltb_spec p 8) as [Hp8|Hp8]; simpl.
    - destruct (Z.le_gt_cases s p).
      + rewrite buf_bit_past by lia. unfold read.
        rewrite (byte_high _ (p + 8 - s) Hprev) by lia. by rewrite andb_false_r.
      + destruct (Z.ltb_spec 0 nb); simpl.
        * replace (8 * nb + p - s) with (8 * (nb - 1) + (p + 8 - s)) by lia.
          by rewrite buf_bit_split by lia.
        * rewrite buf_bit_neg; [done|lia].
    - unfold read. rewrite (byte_high _ (p + 8 - s) Hprev) by lia.
      by rewrite andb_false_r. }
  (* every byte after the loop *)
  assert (Hloop : ∀ (j : nat) p, 0 ≤ p < 8 → Z.of_nat j ≠ bo + nb →
            Z.testbit (default 0 (B1 !! j)) p
            = Z.testbit (default 0 (B !! j)) p
              || buf_bit (Field.marshal field) (8 * Z.of_nat j + p - o)).
  { intros j p Hp Hj. rewrite Hbits by done. f_equal.
    replace (8 * Z.of_nat j + p - o) with (8 * (Z.of_nat j - bo) + p - s)
      by lia.
    destruct (Z.leb_spec bo (Z.of_nat j)); simpl.
    - destruct (Z.ltb_spec (Z.of_nat j) (bo + nb)); simpl; [done|].
      symmetry. apply buf_bit_past. lia.
    - symmetry. apply buf_bit_neg. lia. }
  assert (Hlast : ∀ (j : nat) p, 0 ≤ p < 8 → Z.of_nat j = bo + nb →
            Z.testbit (default 0 (B1 !! j)) p
            = Z.testbit (default 0 (B !! j)) p
            ∧ buf_bit (Field.marshal field) (8 * Z.of_nat j + p - o)
              = Z.testbit ov p).
  { intros j p Hp Hj. split.
    - rewrite Hbits by done.
      destruct (Z.ltb_spec (Z.of_nat j) (bo + nb)); [lia|].
      by rewrite andb_false_r, orb_false_r.
    - rewrite Hovbit by lia. destruct (Z.ltb_spec p 8); [|lia]. simpl.
      f_equal. lia. }
  unfold Msg.marshal_field, for_range. fold bo s nb.
  rewrite Z.sub_0_r.
  change (foldl _ (Some (B, 0)) (seqZ 0 nb))
    with (foldl (carry_step (Field.marshal field) bo s) (Some (B, 0))
            (seqZ 0 nb)).
  rewrite Hrun. simpl.
  assert (Hfinish : ∀ B',
            length B' = length B → is_bytes B' →
            (∀ (j : nat) p, 0 ≤ p < 8 →
               Z.testbit (default 0 (B' !! j)) p
               = Z.testbit (default 0 (B !! j)) p
                 || buf_bit (Field.marshal field) (8 * Z.of_nat j + p - o)) →
            ∃ B'0,
              Some B' = Some B'0 ∧ length B'0 = length B ∧ is_bytes B'0
              ∧ ∀ g, buf_bit B'0 g
                     = buf_bit B g || buf_bit (Field.marshal field) (g - o)).
  { intros B' HlenB' HB' Hbyte. exists B'. repeat split; try done.
    intros g. destruct (Z.lt_ge_cases g 0) as [Hg|Hg].
    - by rewrite !buf_bit_neg by lia.
    - pose proof (Z.div_mod g 8 ltac:(lia)) as Hdm.
      pose proof (Z.mod_pos_bound g 8 ltac:(lia)) as Hm.
      assert (0 ≤ g / 8) by (apply Z.div_pos; lia).
      rewrite Hdm at 1 2. rewrite <- (Z2Nat.id (g / 8)) at 1 2 by done.
      rewrite !buf_bit_byte by done. rewrite Hbyte by done.
      f_equal. f_equal. rewrite Z2Nat.id by done. lia. }
  destruct (Z.eqb_spec ov 0) as [Hz|Hnz].
  - apply Hfinish; [done..|]. intros j p Hp.
    destruct (decide (Z.of_nat j = bo + nb)) as [Hj|Hj].
    + destruct (Hlast j p Hp Hj) as [-> ->]. rewrite Hz, Z.bits_0.
      by rewrite orb_false_r.
    + by apply Hloop.
  - assert (Hin : bo + nb < Z.of_nat (length B)).
    { destruct (Z.lt_ge_cases (bo + nb) (Z.of_nat (length B))) as [|Hge];
        [done|].
      exfalso. apply Hnz. apply Z.bits_inj'. intros p Hp.
      rewrite Z.bits_0, Hovbit by done.
      destruct (Z.ltb_spec p 8); simpl; [|done].
      apply marshal_bit_past; [done|]. lia. }
    destruct (lookup_lt_is_Some_2 B1 (Z.to_nat (bo + nb))) as [b1 Hb1]; [lia|].
    unfold read. rewrite Hb1. simpl.
    apply Hfinish.
    + by rewrite length_insert.
    + apply Forall_insert; [done|]. apply uint8_byte.
    + intros j p Hp.
      destruct (decide (j = Z.to_nat (bo + nb))) as [->|Hj].
      * rewrite list_lookup_insert_eq by lia. simpl.
        rewrite testbit_uint8, Z.lor_spec by lia.
        destruct (Hlast (Z.to_nat (bo + nb)) p Hp ltac:(lia)) as [Hold ->].
        rewrite Hb1 in Hold. simpl in Hold. rewrite Hold.
        destruct (Z.ltb_spec p 8); [done|lia].
      * rewrite list_lookup_insert_ne by done. apply Hloop; [done|lia].
Qed.

End Carry.

Section MsgMarshal.
Import Field.

Lemma layout_bit_before fs o g :
  Forall (λ f, wf_decl (decl f)) fs → g < o → layout_bit fs o g = false.
Proof.
  intros Hwf. revert o. induction Hwf as [|f fs Hf _ IH]; intros o Hg; [done|].
  simpl. rewrite buf_bit_neg by lia. simpl. apply IH.
  destruct Hf as [Hf _]. unfold Field.n_bits. lia.
Qed.

Lemma layout_bit_past fs o g :
  Forall (λ f, wf_decl (decl f)) fs → o + total_bits fs ≤ g →
  layout_bit fs o g = false.
Proof.
  intros Hwf. revert o. induction Hwf as [|f fs Hf Hfs IH]; intros o Hg; [done|].
  pose proof (total_bits_nonneg _ Hfs).
  change (total_bits (f :: fs)) with (Field.n_bits (decl f) + total_bits fs) in Hg.
  simpl. rewrite marshal_bit_past by (done || lia). simpl. apply IH. lia.
Qed.

(** Inside the span of the k-th field the layout shows that field's bits. *)
Lemma layout_bit_at fs o (k : nat) f i :
  Forall (λ f, wf_decl (decl f)) fs → fs !! k = Some f →
  0 ≤ i < Field.n_bits (decl f) →
  layout_bit fs o (o + total_bits (take k fs) + i) = buf_bit (marshal f) i.
Proof.
  intros Hwf. revert o k. induction Hwf as [|f0 fs Hf0 Hfs IH]; intros o k;
    [done|].
  destruct k as [|k]; simpl.
  - intros [= ->] Hi.
    replace (o + 0 + i - o) with i by lia.
    rewrite layout_bit_before by (done || lia). by rewrite orb_false_r.
  - intros Hk Hi.
    assert (0 ≤ total_bits (take k fs))
      by (apply total_bits_nonneg; by apply Forall_take).
    fold (total_bits (take k fs)).
    rewrite marshal_bit_past by (done || lia). simpl.
    rewrite <- (IH (o + Field.n_bits (decl f0)) k) by done. f_equal. lia.
Qed.

(** Packing a run of fields. *)
Lemma marshal_tuple_spec fs B o :
  Forall (λ f, wf_decl (decl f)) fs → is_bytes B → 0 ≤ o →
  o + total_bits fs ≤ 8 * Z.of_nat (length B) → o + total_bits fs < 2 ^ 64 →
  ∃ B',
    Msg.marshal_tuple fs B o = Some B'
    ∧ length B' = length B
    ∧ is_bytes B'
    ∧ ∀ g, buf_bit B' g = buf_bit B g || layout_bit fs o g.
Proof.
  intros Hwf. revert B o.
  induction Hwf as [|f fs Hf Hfs IH]; intros B o HB Ho Hfit Hwrap.
  - exists B. repeat split; try done. intros g. by rewrite orb_false_r.
  - pose proof (total_bits_nonneg _ Hfs).
    pose proof (wf_decl_bound _ Hf).
    change (total_bits (f :: fs)) with (Field.n_bits (decl f) + total_bits fs)
      in Hfit, Hwrap.
    destruct (marshal_field_spec f B o) as (B1 & Hrun & Hlen1 & HB1 & Hbits1);
      [done | done | done | lia |].
    simpl. rewrite Hrun. simpl. rewrite size_t_small by lia.
    destruct (IH B1 (o + Field.n_bits (decl f)))
      as (B2 & Hrun2 & Hlen2 & HB2 & Hbits2); [done | lia | lia | lia |].
    exists B2. split; [done|]. split; [congruence|]. split; [done|].
    intros g. by rewrite Hbits2, Hbits1, orb_assoc.
Qed.

(** Two LSB-first decodes that see the same bits read the same integer. *)
Lemma lsb_unmarshal_ext d B1 o1 B2 o2 :
  wf_decl d →
  0 ≤ o1 → o1 + n_bits d < 2 ^ 64 → o1 + n_bits d ≤ 8 * Z.of_nat (length B1) →
  0 ≤ o2 → o2 + n_bits d < 2 ^ 64 → o2 + n_bits d ≤ 8 * Z.of_nat (length B2) →
  (∀ i, 0 ≤ i < n_bits d → buf_bit B1 (o1 + i) = buf_bit B2 (o2 + i)) →
  lsb_unmarshal d B1 o1 = lsb_unmarshal d B2 o2.
Proof.
  intros Hwf H1 H1w H1l H2 H2w H2l Hsame.
  pose proof (wf_decl_bound d Hwf) as Hn.
  destruct (lsb_unmarshal_in_bounds d B1 o1) as (r1 & -> & [Hr1 Hr1'] & Hb1);
    [done..|].
  destruct (lsb_unmarshal_in_bounds d B2 o2) as (r2 & -> & [Hr2 Hr2'] & Hb2);
    [done..|].
  f_equal. apply Z.bits_inj'. intros i Hi.
  destruct (Z.lt_ge_cases i (n_bits d)) as [Hlt|Hge].
  - destruct (Hb1 i ltac:(lia)) as (b1 & Hrd1 & ->).
    destruct (Hb2 i ltac:(lia)) as (b2 & Hrd2 & ->).
    pose proof (Hsame i ltac:(lia)) as Hs. unfold buf_bit in Hs.
    rewrite Hrd1, Hrd2 in Hs. simpl in Hs.
    destruct (Z.leb_spec 0 (o1 + i)), (Z.leb_spec 0 (o2 + i)); try lia. done.
  - rewrite <- (Z.mod_small r1 (2 ^ n_bits d)) by lia.
    rewrite <- (Z.mod_small r2 (2 ^ n_bits d)) by lia.
    by rewrite !Z.mod_pow2_bits_high by lia.
Qed.

Lemma buf_bit_zero (n : nat) g : buf_bit (replicate n 0) g = false.
Proof.
  unfold buf_bit, read.
  destruct (replicate n 0 !! Z.to_nat (g / 8)) as [b|] eqn:E; simpl.
  - apply lookup_replicate in E as [-> _]. by rewrite Z.bits_0, andb_false_r.
  - by rewrite Z.bits_0, andb_false_r.
Qed.

(** [marshal()] of a message stays inside its buffer and lays the fields'
    marshalled bits out one after the other. *)
Lemma msg_marshal_spec m :
  Forall (λ f, wf_decl (decl f)) (Msg.fields m) →
  total_bits (Msg.fields m) < 2 ^ 64 →
  ∃ B,
    Msg.marshal m = Some B
    ∧ length B = Z.to_nat (Msg.n_bytes m)
    ∧ 8 * Z.of_nat (length B) < total_bits (Msg.fields m) + 8
    ∧ total_bits (Msg.fields m) ≤ 8 * Z.of_nat (length B)
    ∧ is_bytes B
    ∧ ∀ g, buf_bit B g = layout_bit (Msg.fields m) 0 g.
Proof.
  intros Hwf Htotal. pose proof (total_bits_nonneg _ Hwf) as H0.
  assert (Hn : Msg.n_bits m = total_bits (Msg.fields m)).
  { unfold Msg.n_bits. rewrite sum_bits_total by done. apply size_t_small. lia. }
  unfold Msg.marshal, Msg.n_bytes. rewrite Hn.
  pose proof (Z.div_mod (total_bits (Msg.fields m) + 7) 8 ltac:(lia)) as Hdm.
  pose proof (Z.mod_pos_bound (total_bits (Msg.fields m) + 7) 8 ltac:(lia)).
  assert (0 ≤ (total_bits (Msg.fields m) + 7) / 8) by (apply Z.div_pos; lia).
  destruct (marshal_tuple_spec (Msg.fields m)
              (replicate (Z.to_nat ((total_bits (Msg.fields m) + 7) / 8)) 0) 0)
    as (B & Hrun & Hlen & HB & Hbits); [done | | done | | lia |].
  { apply Forall_replicate. lia. }
  { rewrite length_replicate. lia. }
  rewrite length_replicate in Hlen.
  exists B. split; [done|]. split; [done|]. rewrite Hlen.
  split; [lia|]. split; [lia|]. split; [done|].
  intros g. by rewrite Hbits, buf_bit_zero.
Qed.

(** What an LSB-first field decodes from the marshalled message at its
    own offset. *)
Lemma msg_marshal_decode m B (k : nat) f :
  Forall (λ f, wf_decl (decl f)) (Msg.fields m) →
  total_bits (Msg.fields m) < 2 ^ 64 →
  Msg.marshal m = Some B →
  Msg.fields m !! k = Some f → EndianessT (decl f) = little →
  decode_raw (decl f) B (total_bits (take k (Msg.fields m)))
  = Some (to_raw (T (decl f)) (m_value f) mod 2 ^ n_bits (decl f)).
Proof.
  intros Hwf Htotal HB Hk Hle.
  destruct (msg_marshal_spec m Hwf Htotal)
    as (B' & HB' & _ & _ & Hfit & _ & Hbits).
  rewrite HB in HB'. injection HB' as <-.
  pose proof (Forall_lookup_1 _ _ _ _ Hwf Hk) as Hf. simpl in Hf.
  pose proof (wf_decl_bound _ Hf) as Hn.
  destruct (n_bytes_covers _ Hf) as [Hnb Hcov].
  destruct (marshal_shape f Hf) as [Hmlen _].
  assert (Hsplit : total_bits (Msg.fields m)
                   = total_bits (take k (Msg.fields m))
                     + (n_bits (decl f)
                        + total_bits (drop (S k) (Msg.fields m)))).
  { rewrite <- (take_drop_middle _ _ _ Hk) at 1. by rewrite total_bits_app. }
  assert (0 ≤ total_bits (take k (Msg.fields m)))
    by (apply total_bits_nonneg; by apply Forall_take).
  assert (0 ≤ total_bits (drop (S k) (Msg.fields m)))
    by (apply total_bits_nonneg; by apply Forall_drop).
  rewrite <- (decode_marshal_lsb f) by done.
  unfold decode_raw. rewrite Hle.
  apply lsb_unmarshal_ext; try done; try lia.
  intros i Hi. rewrite Hbits.
  rewrite <- (Z.add_0_l (total_bits _ + i)), Z.add_assoc.
  rewrite (layout_bit_at _ 0 k f) by done. by rewrite Z.add_0_l.
Qed.

(** Decoding a run of fields that each decode to themselves. *)
Lemma unmarshal_tuple_fixed B o fs :
  (∀ (k : nat) f, fs !! k = Some f →
     Field.unmarshal f B (end_offset o (take k fs)) = Some (f, true)) →
  Msg.unmarshal_tuple B o fs = Some (fs, [], true).
Proof.
  revert o. induction fs as [|f fs IH]; intros o Hall; [done|].
  pose proof (Hall 0%nat f eq_refl) as H0. simpl in H0.
  rewrite unmarshal_tuple_cons, H0. simpl.
  rewrite IH; [done|]. intros k g Hg. apply (Hall (S k) g Hg).
Qed.
End MsgMarshal.

(** X16.  [marshal()] of a message never leaves its buffer: it returns
    [ceil(n_bits / 8)] bytes in which the bits of the k-th field's own
    [marshal()] buffer stand at the bits after the widths of the fields
    before it, whatever the alignment, and every bit past the last field
    is zero. *)
Theorem msg_marshal_layout (m : Msg.msg_t) :
  Forall (λ f, Field.wf_decl (Field.decl f)) (Msg.fields m) →
  total_bits (Msg.fields m) < 2 ^ 64 →
  ∃ B,
    Msg.marshal m = Some B
    ∧ length B = Z.to_nat ((total_bits (Msg.fields m) + 7) / 8)
    ∧ is_bytes B
    ∧ (∀ (k : nat) f i,
         Msg.fields m !! k = Some f → 0 ≤ i < Field.n_bits (Field.decl f) →
         buf_bit B (total_bits (take k (Msg.fields m)) + i)
         = buf_bit (Field.marshal f) i)
    ∧ (∀ g, total_bits (Msg.fields m) ≤ g → buf_bit B g = false).
Proof.
  intros Hwf Htotal.
  destruct (msg_marshal_spec m Hwf Htotal)
    as (B & HB & Hlen & _ & _ & Hbytes & Hbits).
  exists B. split; [done|]. split.
  { rewrite Hlen. unfold Msg.n_bytes, Msg.n_bits.
    rewrite sum_bits_total by done. rewrite size_t_small; [done|].
    pose proof (total_bits_nonneg _ Hwf). lia. }
  split; [done|]. split.
  - intros k f i Hk Hi. rewrite Hbits.
    rewrite <- (Z.add_0_l (total_bits _ + i)), Z.add_assoc.
    by rewrite (layout_bit_at _ 0 k f).
  - intros g Hg. rewrite Hbits. by apply layout_bit_past.
Qed.

Lemma msg_marshal_layout_witness :
  Msg.marshal assigned_msg = Some [0x31; 0x12]
  ∧ buf_bit [0x31; 0x12] (4 + 0)
    = buf_bit (Field.marshal (Field.assign (Field.any second_f) 0x123)) 0.
Proof.
  destruct (msg_marshal_layout assigned_msg) as (B & HB & _ & _ & Hat & _).
  - repeat constructor; vm_compute; discriminate.
  - vm_compute. reflexivity.
  - split; [reflexivity|].
    assert (B = [0x31; 0x12]) as -> by (revert HB; vm_compute; congruence).
    apply (Hat 1%nat _ 0 eq_refl). vm_compute. split; [discriminate|reflexivity].
Defined.

(** X17.  Decoding the k-th field of a message from the message's own
    [marshal()] buffer, at the offset the fields before it end at, reads
    the low [n_bits] bits of that field's value, for every LSB-first
    field. *)
Theorem msg_marshal_decode_lsb
    (m : Msg.msg_t) (B : list Z) (k : nat) (f : Field.field_t) :
  Forall (λ f, Field.wf_decl (Field.decl f)) (Msg.fields m) →
  total_bits (Msg.fields m) < 2 ^ 64 →
  Msg.marshal m = Some B →
  Msg.fields m !! k = Some f →
  Field.EndianessT (Field.decl f) = Field.little →
  Field.decode_raw (Field.decl f) B (total_bits (take k (Msg.fields m)))
  = Some (Field.m_value f mod 2 ^ Field.n_bits (Field.decl f)).
Proof.
  intros Hwf Htotal HB Hk Hle.
  rewrite (msg_marshal_decode m B k f) by done. f_equal.
  apply to_raw_mod. apply (Forall_lookup_1 _ _ _ _ Hwf Hk).
Qed.

Lemma msg_marshal_decode_lsb_witness :
  Field.decode_raw second_f [0x31; 0x12] 4 = Some 0x123.
Proof.
  apply (msg_marshal_decode_lsb assigned_msg [0x31; 0x12] 1
           (Field.assign (Field.any second_f) 0x123)).
  - repeat constructor; vm_compute; discriminate.
  - vm_compute. reflexivity.
  - reflexivity.
  - reflexivity.
  - reflexivity.
Defined.

(** X18.  Message round trip.  When every field is LSB-first, valid, and
    holds a non-negative value that fits its width and that its condition
    accepts unchanged, unmarshalling the message's own [marshal()] buffer
    passes the size check, decodes every field to what it already held and
    returns the custom validator's verdict on those fields (true when
    there is none). *)
Theorem msg_marshal_unmarshal (m : Msg.msg_t) :
  Forall settled (Msg.fields m) →
  total_bits (Msg.fields m) + 7 < 2 ^ 64 →
  ∃ B m' tr,
    Msg.marshal m = Some B
    ∧ Msg.unmarshal_tuple B 0 (Msg.fields m) = Some (Msg.fields m, [], true)
    ∧ Msg.unmarshal m B (Z.of_nat (length B)) 0
      = Some (m', tr,
              match Msg.m_custom_validator m with
              | Some cv => cv (Msg.fields m)
              | None => true
              end)
    ∧ Msg.fields m' = Msg.fields m.
Proof.
  intros Hset Htotal7.
  assert (Htotal : total_bits (Msg.fields m) < 2 ^ 64) by lia.
  assert (Hwf : Forall (λ f, Field.wf_decl (Field.decl f)) (Msg.fields m)).
  { eapply Forall_impl; [exact Hset|]. by intros f [? _]. }
  pose proof (total_bits_nonneg _ Hwf) as H0.
  destruct (msg_marshal_spec m Hwf Htotal)
    as (B & HB & Hlen & Hlt & Hfit & _ & _).
  assert (Hrun : Msg.unmarshal_tuple B 0 (Msg.fields m)
                 = Some (Msg.fields m, [], true)).
  { apply unmarshal_tuple_fixed. intros k f Hk.
    destruct (Forall_lookup_1 _ _ _ _ Hset Hk)
      as (Hf & Hle & Hv & Hmax & Hval & Hok).
    assert (0 ≤ total_bits (take k (Msg.fields m)))
      by (apply total_bits_nonneg; by apply Forall_take).
    assert (total_bits (take k (Msg.fields m)) ≤ total_bits (Msg.fields m)).
    { rewrite <- (take_drop k (Msg.fields m)) at 2. rewrite total_bits_app.
      pose proof (total_bits_nonneg (drop k (Msg.fields m))
                    ltac:(by apply Forall_drop)). lia. }
    rewrite end_offset_total by lia. rewrite Z.add_0_l, size_t_small by lia.
    unfold Field.unmarshal.
    rewrite (msg_marshal_decode m B k f) by done. simpl.
    assert (Hw : 2 ^ Field.n_bits (Field.decl f)
                 ≤ 2 ^ (Field.sizeof (Field.T (Field.decl f)) * 8))
      by (apply Z.pow_le_mono_r; [lia | apply Hf]).
    unfold Field.to_raw. rewrite (Z.mod_small (Field.m_value f)) by lia.
    rewrite Z.mod_small by done. rewrite static_cast_small by lia.
    replace (Field.set_value f (Field.m_value f)) with f by (by destruct f).
    rewrite Hval. unfold Field.is_valid. by rewrite Hok. }
  assert (Hn : Msg.n_bits m = total_bits (Msg.fields m)).
  { unfold Msg.n_bits. rewrite sum_bits_total by done. apply size_t_small. lia. }
  assert (Hsize : (Msg.bits_available (Z.of_nat (length B)) 0 <? Msg.n_bits m)
                  = false).
  { apply Z.ltb_ge. unfold Msg.bits_available. rewrite Z.sub_0_r.
    rewrite (size_t_small (Z.of_nat (length B) * 8)) by lia.
    rewrite size_t_small by lia. lia. }
  assert (Hcall : ∃ m' tr,
            Msg.unmarshal m B (Z.of_nat (length B)) 0
            = Some (m', tr,
                    match Msg.m_custom_validator m with
                    | Some cv => cv (Msg.fields m)
                    | None => true
                    end)
            ∧ Msg.fields m' = Msg.fields m).
  { unfold Msg.unmarshal, Msg.on_unmarshal. rewrite Hsize.
    rewrite (on_unmarshal_decode_true _ _ _ _ Hrun).
    destruct (Msg.m_custom_validator m) as [cv|];
      [destruct (cv (Msg.fields m))|]; eexists _, _; simpl; done. }
  destruct Hcall as (m' & tr & Hcall & Hfs).
  exists B, m', tr. done.
Qed.

Lemma msg_marshal_unmarshal_witness :
  ∃ m' tr,
    Msg.unmarshal assigned_msg [0x31; 0x12] 2 0 = Some (m', tr, true)
    ∧ Msg.fields m' = Msg.fields assigned_msg.
Proof.
  destruct (msg_marshal_unmarshal assigned_msg)
    as (B & m' & tr & HB & _ & Hun & Hfs).
  - repeat constructor; vm_compute; try discriminate; reflexivity.
  - vm_compute. reflexivity.
  - assert (B = [0x31; 0x12]) as -> by (revert HB; vm_compute; congruence).
    exists m', tr. split; [exact Hun | exact Hfs].
Defined.

(** X19.  When the offset lies inside the buffer
    ([bit_offset <= len * 8 < 2^64]) and fewer than [n_bits] bits follow
    it, [unmarshal] returns false without decoding: the events are the
    start hook and one bit-size error carrying the bits left,
    [len * 8 - bit_offset], and [n_bits]; the fields, the callback and the
    custom validator are those of before the call, and [valid] is
    false. *)
Theorem on_unmarshal_short_buffer
    (m : Msg.msg_t) (bytes : list Z) (len bit_offset : Z) :
  0 ≤ bit_offset ≤ len * 8 → len * 8 < 2 ^ 64 →
  len * 8 - bit_offset < Msg.n_bits m →
  ∃ m',
    Msg.unmarshal m bytes len bit_offset =
      Some (m',
            [Msg.on_unmarshal_start;
             Msg.on_error_bit_size (len * 8 - bit_offset) (Msg.n_bits m)],
            false)
    ∧ Msg.fields m' = Msg.fields m
    ∧ Msg.valid m' = false
    ∧ Msg.m_callback m' = Msg.m_callback m
    ∧ Msg.m_custom_validator m' = Msg.m_custom_validator m.
Proof.
  intros Hoff Hlen Hshort.
  assert (Hbits : Msg.bits_available len bit_offset = len * 8 - bit_offset).
  { unfold Msg.bits_available.
    rewrite (size_t_small (len * 8)) by lia. apply size_t_small. lia. }
  rewrite <- Hbits. apply on_unmarshal_guard_taken. lia.
Qed.

Lemma on_unmarshal_short_buffer_witness :
  ∃ m',
    Msg.unmarshal example_msg [0x84] 1 0 =
      Some (m', [Msg.on_unmarshal_start; Msg.on_error_bit_size 8 16], false)
    ∧ Msg.fields m' = Msg.fields example_msg
    ∧ Msg.valid m' = false
    ∧ Msg.m_callback m' = Msg.m_callback example_msg
    ∧ Msg.m_custom_validator m' = Msg.m_custom_validator example_msg.
Proof.
  apply (on_unmarshal_short_buffer example_msg [0x84] 1 0);
    [lia | lia | vm_compute; reflexivity].
Defined.

(** ** Reads stay inside the buffer *)

Section InBounds.
Import Field Msg.

(** A field whose bits lie inside the buffer is decoded. *)
Lemma unmarshal_defined f bytes off :
  wf_decl (decl f) → 0 ≤ off → off + Field.n_bits (decl f) < 2 ^ 64 →
  off + Field.n_bits (decl f) ≤ 8 * Z.of_nat (length bytes) →
  ∃ f', Field.unmarshal f bytes off = Some (f', m_valid f').
Proof.
  intros Hwf Hoff Hwrap Hlen.
  pose proof (wf_decl_bound _ Hwf) as Hn.
  destruct (loops_total bytes off (Z.to_nat (Field.n_bits (decl f))))
    as [[lsb Hl] [msb Hm]]; [lia..|].
  assert (Hdec : is_Some (decode_raw (decl f) bytes off)).
  { unfold decode_raw, lsb_unmarshal, msb_unmarshal, for_range.
    rewrite decode_range by lia. rewrite decide_True by lia.
    destruct (EndianessT (decl f)); eauto. }
  destruct Hdec as [raw Hraw]. unfold Field.unmarshal. rewrite Hraw. simpl.
  eauto.
Qed.

(** A run over fields whose bits all lie inside the buffer returns. *)
Lemma unmarshal_tuple_defined bytes fs off :
  Forall (λ f, wf_decl (decl f)) fs →
  0 ≤ off → off + total_bits fs < 2 ^ 64 →
  off + total_bits fs ≤ 8 * Z.of_nat (length bytes) →
  is_Some (unmarshal_tuple bytes off fs).
Proof.
  intros Hwf. revert off.
  induction Hwf as [|f fs Hf Hfs IH]; intros off Hoff Hwrap Hlen; [by eexists|].
  pose proof (total_bits_nonneg _ Hfs) as Hfs0.
  pose proof (wf_decl_bound _ Hf) as Hn.
  change (total_bits (f :: fs))
    with (Field.n_bits (decl f) + total_bits fs) in Hwrap, Hlen.
  rewrite unmarshal_tuple_cons.
  destruct (unmarshal_defined f bytes off) as [f' Hf']; [done | lia..|].
  rewrite Hf'. simpl. rewrite (unmarshal_decl _ _ _ _ _ Hf').
  destruct (m_valid f'); simpl; [|by eexists].
  rewrite size_t_small by lia.
  destruct (IH (off + Field.n_bits (decl f))) as [[[fs' tr] r] ->];
    [lia..|]. by eexists.
Qed.
End InBounds.

(** X20.  Decoding stays inside the buffer when the offset does: for a
    buffer of at least [len] bytes and [bit_offset <= len * 8 < 2^64],
    [unmarshal] returns, whether the size check rejects the call or the
    fields are decoded; no byte outside the buffer is read. *)
Theorem on_unmarshal_in_bounds
    (m : Msg.msg_t) (bytes : list Z) (len bit_offset : Z) :
  Forall (λ f, Field.wf_decl (Field.decl f)) (Msg.fields m) →
  total_bits (Msg.fields m) < 2 ^ 64 →
  0 ≤ bit_offset ≤ len * 8 → len * 8 < 2 ^ 64 →
  len ≤ Z.of_nat (length bytes) →
  ∃ m' tr r,
    Msg.unmarshal m bytes len bit_offset = Some (m', tr, r)
    ∧ (r = true → bit_offset + Msg.n_bits m ≤ len * 8).
Proof.
  intros Hwf Htotal Hoff Hlen Hbuf.
  pose proof (total_bits_nonneg _ Hwf) as H0.
  assert (Hn : Msg.n_bits m = total_bits (Msg.fields m)).
  { unfold Msg.n_bits. rewrite sum_bits_total by done.
    apply size_t_small. lia. }
  assert (Hbits : Msg.bits_available len bit_offset = len * 8 - bit_offset).
  { unfold Msg.bits_available.
    rewrite (size_t_small (len * 8)) by lia. apply size_t_small. lia. }
  unfold Msg.unmarshal, Msg.on_unmarshal. rewrite Hbits, Hn.
  destruct (Z.ltb_spec (len * 8 - bit_offset) (total_bits (Msg.fields m))).
  { eexists _, _, _. split; [reflexivity|done]. }
  destruct (unmarshal_tuple_defined bytes (Msg.fields m) bit_offset)
    as [[[fs' tr0] r0] Hrun]; [done | lia..|].
  destruct (on_unmarshal_decode_fields _ _ _ _ _ _ Hrun)
    as (m' & tr & r & -> & _ & _). simpl.
  eexists _, _, _. split; [reflexivity|]. lia.
Qed.

Lemma on_unmarshal_in_bounds_witness :
  ∃ m' tr r,
    Msg.unmarshal example_msg [0xFF; 0x80; 0x0A] 3 8 = Some (m', tr, r)
    ∧ (r = true → 8 + Msg.n_bits example_msg ≤ 3 * 8).
Proof.
  apply (on_unmarshal_in_bounds example_msg [0xFF; 0x80; 0x0A] 3 8).
  - repeat constructor; vm_compute; discriminate.
  - vm_compute. reflexivity.
  - lia.
  - lia.
  - simpl. lia.
Defined.
